(** * d2l-tensorflow-colab: the saved utility functions of the d2l notebook

    A shallow embedding of the helper functions that the notebook marks
    with [#@save] (Accumulator, download, extract, download_extract,
    tokenize, grad_clipping, truncate_pad, build_array_nmt, sequence_mask,
    predict_seq2seq), and the properties the specification states about
    them.

    Conventions of the embedding.
    - A Python [int] is a [Z]; a Python [float] (IEEE binary64) is a
      primitive [float].
    - A Python [str] is a list of code points ([N]); a literal ['abc'] of
      the source is written [py "abc"].
    - A Python list is a [list]; list repetition [[x] * n], slicing
      [l[:n]] and indexing [l[i]] follow Python for negative [n] and [i].
    - A raised exception is a value of an error or option type.
    - TensorFlow, requests, hashlib, zipfile and tarfile are outside the
      notebook: what the functions need from them is a parameter of the
      section that embeds the function.
    - The float32 numbers of TensorFlow are such a parameter, with the
      facts of IEEE 754 arithmetic that a proof uses as hypotheses;
      [Float32] has the operations on binary32 numbers, to run the
      functions on. *)

From Stdlib Require Import ZArith List Floats Lia String Ascii Reals Lra.
From stdpp Require Import base option list gmap.
Import ListNotations.

Local Open Scope Z_scope.

(** ** Python built-ins used by the notebook *)

Module Py.

(** [[x] * n]: the empty list when [n <= 0]. *)
Definition list_mul {A} (x : A) (n : Z) : list A := repeat x (Z.to_nat n).

(** [len(l)] *)
Definition len {A} (l : list A) : Z := Z.of_nat (length l).

(** [l[:n]]: the first [n] items, all but the last [-n] when [n < 0]. *)
Definition slice_to {A} (l : list A) (n : Z) : list A :=
  if 0 <=? n then firstn (Z.to_nat n) l
  else firstn (Z.to_nat (len l + n)) l.

(** [l[i]]: counts from the end when [i < 0]; [None] is IndexError. *)
Definition index {A} (l : list A) (i : Z) : option A :=
  if 0 <=? i then nth_error l (Z.to_nat i)
  else if 0 <=? len l + i then nth_error l (Z.to_nat (len l + i))
  else None.

Lemma length_list_mul {A} (x : A) n : length (list_mul x n) = Z.to_nat n.
Proof. apply repeat_length. Qed.

Lemma index_nat {A} (l : list A) (i : nat) :
  index l (Z.of_nat i) = nth_error l i.
Proof.
  unfold index. destruct (Z.leb_spec 0 (Z.of_nat i)); [|lia].
  now rewrite Nat2Z.id.
Qed.

Lemma nth_error_zip_with {A B C} (f : A -> B -> C) l1 l2 i a b :
  nth_error l1 i = Some a -> nth_error l2 i = Some b ->
  nth_error (zip_with f l1 l2) i = Some (f a b).
Proof.
  revert l2 i; induction l1 as [|x l1 IH]; intros [|y l2] [|i]; simpl;
    try discriminate; auto.
  now intros [= ->] [= ->].
Qed.

Lemma nth_error_seq_lt a n j :
  (j < n)%nat -> nth_error (seq a n) j = Some (a + j)%nat.
Proof.
  revert a j; induction n as [|n IH]; intros a [|j] Hj; simpl; try lia.
  - f_equal; lia.
  - rewrite IH by lia. f_equal; lia.
Qed.

Lemma nth_error_lt {A} (l : list A) j x :
  nth_error l j = Some x -> (j < length l)%nat.
Proof. intros H. apply nth_error_Some. congruence. Qed.

Lemma nth_error_repeat {A} (x : A) m i :
  (i < m)%nat -> nth_error (repeat x m) i = Some x.
Proof.
  revert i; induction m as [|m IH]; intros [|i] Hi; simpl; try lia; auto.
  apply IH; lia.
Qed.

End Py.

(** ** Accumulator *)

Module Accumulator.

(** [self.data] is the only field. *)
Record t := mk { data : list float }.

(** [__init__(self, n)]: [self.data = [0.0] * n] *)
Definition init (n : Z) : t := mk (Py.list_mul 0%float n).

(** [add(self, *args)]:
    [self.data = [a + float(b) for a, b in zip(self.data, args)]].
    An argument is given by the float that [float(b)] converts it to;
    [zip] stops at the shorter of its two lists. *)
Definition add (self : t) (args : list float) : t :=
  mk (zip_with (fun a b => (a + b)%float) (data self) args).

(** [reset(self)]: [self.data = [0.0] * len(self.data)] *)
Definition reset (self : t) : t :=
  mk (Py.list_mul 0%float (Py.len (data self))).

(** [__getitem__(self, idx)]: [self.data[idx]] *)
Definition getitem (self : t) (idx : Z) : option float :=
  Py.index (data self) idx.

(** A call of one of the two mutating methods, and a sequence of them
    applied in order. *)
Inductive call :=
| CallAdd (args : list float)
| CallReset.

Definition step (self : t) (c : call) : t :=
  match c with
  | CallAdd args => add self args
  | CallReset => reset self
  end.

Definition run (self : t) (cs : list call) : t := fold_left step cs self.

Definition slots (self : t) : nat := length (data self).

(** Every [add] of the sequence passes at least [n] values. *)
Definition passes_at_least (n : nat) (c : call) : Prop :=
  match c with
  | CallAdd args => (n <= length args)%nat
  | CallReset => True
  end.

(** The accumulator is as [__init__] or [reset] left it. *)
Definition fresh (self : t) : Prop :=
  (exists n, self = init n) \/ (exists prev, self = reset prev).

(** The [add] call with arguments [args] contributes [v] to slot [i]. *)
Definition contributes (i : nat) (args : list float) (v : float) : Prop :=
  nth_error args i = Some v.

(** [v1 + ... + vn] as the accumulator computes it: from [0.0], in call
    order. *)
Definition fsum (vs : list float) : float :=
  fold_left (fun a b => (a + b)%float) vs 0%float.

(** Calls for the examples: two values, a reset, three values; and two
    [add] calls of two values each. *)
Definition example_calls : list call :=
  [CallAdd [1%float; 2%float]; CallReset;
   CallAdd [3%float; 4%float; 5%float]].

Definition example_adds : list (list float) :=
  [[1%float; 2%float]; [3%float; 4%float]].

(** *** Slot count *)

Lemma slots_init n : slots (init n) = Z.to_nat n.
Proof. apply Py.length_list_mul. Qed.

Lemma slots_add self args :
  slots (add self args) = Nat.min (slots self) (length args).
Proof. apply length_zip_with. Qed.

Lemma slots_reset self : slots (reset self) = slots self.
Proof.
  unfold slots, reset, Py.len; simpl.
  rewrite Py.length_list_mul. apply Nat2Z.id.
Qed.

Lemma slots_step_le self c : (slots (step self c) <= slots self)%nat.
Proof.
  destruct c; simpl; [rewrite slots_add; lia | rewrite slots_reset; lia].
Qed.

Lemma slots_run_le cs : forall self, (slots (run self cs) <= slots self)%nat.
Proof.
  induction cs as [|c cs IH]; intros self; simpl; [lia|].
  etransitivity; [apply IH | apply slots_step_le].
Qed.

Lemma slots_run_keep cs : forall self,
  Forall (passes_at_least (slots self)) cs ->
  slots (run self cs) = slots self.
Proof.
  induction cs as [|c cs IH]; intros self Hcs; simpl; [reflexivity|].
  inversion Hcs as [|? ? Hc Hcs']; subst.
  assert (Hstep : slots (step self c) = slots self).
  { destruct c; simpl in *; [rewrite slots_add; lia | apply slots_reset]. }
  rewrite IH; rewrite Hstep; auto.
Qed.

(** C4, as stated, fails: an [add] that passes one value to an
    accumulator of two slots leaves one slot. *)
Lemma slots_shrink_counterexample :
  slots (run (init 2) [CallAdd [1%float]]) <> Z.to_nat 2.
Proof. vm_compute. discriminate. Qed.

(** C4 (amended): an accumulator constructed with [n] slots still has
    [n] slots after every sequence of [add] and [reset] calls in which
    each [add] passes at least [n] values (values beyond the [n]-th are
    ignored); after any sequence at all it has at most [n] slots. *)
Theorem slots_fixed (n : Z) (cs : list call) :
  (slots (run (init n) cs) <= Z.to_nat n)%nat /\
  (Forall (passes_at_least (Z.to_nat n)) cs ->
   slots (run (init n) cs) = Z.to_nat n).
Proof.
  split.
  - rewrite <- (slots_init n). apply slots_run_le.
  - intros Hcs. rewrite <- (slots_init n) in Hcs.
    rewrite slots_run_keep by assumption. apply slots_init.
Qed.

Lemma slots_fixed_witness :
  Forall (passes_at_least (Z.to_nat 2)) example_calls /\
  slots (run (init 2) example_calls) = Z.to_nat 2.
Proof.
  assert (H : Forall (passes_at_least (Z.to_nat 2)) example_calls)
    by (repeat constructor).
  split; [exact H|].
  exact (proj2 (slots_fixed 2 example_calls) H).
Defined.

(** *** Slot contents *)

Lemma data_fresh self : fresh self -> data self = repeat 0%float (slots self).
Proof.
  intros [[n ->] | [prev ->]].
  - rewrite slots_init. reflexivity.
  - rewrite slots_reset. unfold reset, Py.list_mul, Py.len, slots; simpl.
    now rewrite Nat2Z.id.
Qed.

Lemma nth_run_adds i adds vs :
  Forall2 (contributes i) adds vs ->
  forall self a, nth_error (data self) i = Some a ->
  nth_error (data (run self (map CallAdd adds))) i
  = Some (fold_left (fun x y => (x + y)%float) vs a).
Proof.
  induction 1 as [|args v adds vs Hv _ IH]; intros self a Ha; simpl;
    [exact Ha|].
  apply IH. simpl.
  now apply (Py.nth_error_zip_with (fun x y => (x + y)%float)).
Qed.

(** C5: starting from construction or the latest [reset], after [add]
    calls that contribute [v1 .. vn] to slot [i], [self[i]] is
    [v1 + ... + vn] (summed from [0.0] in call order); and after [reset]
    the data is all zeros, so every slot reads [0.0]. *)
Theorem slot_is_sum (self : t) (i : nat) (adds : list (list float))
    (vs : list float) :
  fresh self -> (i < slots self)%nat -> Forall2 (contributes i) adds vs ->
  getitem (run self (map CallAdd adds)) (Z.of_nat i) = Some (fsum vs) /\
  (forall (acc : t) (j : nat), (j < slots acc)%nat ->
     getitem (reset acc) (Z.of_nat j) = Some 0%float).
Proof.
  intros Hfresh Hi Hadds. split.
  - unfold getitem. rewrite Py.index_nat.
    apply nth_run_adds; [assumption|].
    rewrite (data_fresh _ Hfresh). now apply Py.nth_error_repeat.
  - intros acc j Hj. unfold getitem. rewrite Py.index_nat.
    rewrite (data_fresh (reset _)) by (right; eauto).
    apply Py.nth_error_repeat. now rewrite slots_reset.
Qed.

Lemma slot_is_sum_witness :
  getitem (run (init 2) (map CallAdd example_adds)) 1 = Some 6%float.
Proof.
  refine (proj1 (slot_is_sum (init 2) 1 example_adds [2%float; 4%float]
                   _ _ _)).
  - left. exists 2. reflexivity.
  - vm_compute. lia.
  - repeat constructor.
Defined.

End Accumulator.

(** ** Python strings *)

Module Str.

(** A string is the list of its code points. *)
Definition char := N.
Definition str := list char.

(** A literal of the source. *)
Definition py (s : string) : str := map N_of_ascii (list_ascii_of_string s).
Arguments py s%_string.

(** [c.isspace()]: the code points that CPython classifies as whitespace. *)
Definition isspace (c : char) : bool :=
  ((9 <=? c) && (c <=? 13) || (28 <=? c) && (c <=? 32) || (c =? 133)
   || (c =? 160) || (c =? 5760) || (8192 <=? c) && (c <=? 8202)
   || (c =? 8232) || (c =? 8233) || (c =? 8239) || (c =? 8287)
   || (c =? 12288))%N.

(** [s.split()]: CPython scans the string once; [cur] is the word being
    read, which ends at the next whitespace or at the end of the
    string. *)
Definition emit (cur : str) : list str :=
  match cur with
  | [] => []
  | _ :: _ => [cur]
  end.

Fixpoint split_from (cur s : str) : list str :=
  match s with
  | [] => emit cur
  | c :: s' =>
      if isspace c then emit cur ++ split_from [] s'
      else split_from (cur ++ [c]) s'
  end.

Definition split (s : str) : list str := split_from [] s.

(** [s.split(sep)] for a one-character separator: the pieces between
    the separators, empty pieces included; never the empty list. *)
Fixpoint split_sep (sep : char) (s : str) : list str :=
  match s with
  | [] => [[]]
  | c :: s' =>
      if (c =? sep)%N then [] :: split_sep sep s'
      else match split_sep sep s' with
           | w :: ws => (c :: w) :: ws
           | [] => [[c]]
           end
  end.

(** [s.startswith(prefix)] *)
Definition startswith (s prefix : str) : bool :=
  bool_decide (firstn (length prefix) s = prefix).

(** Truth value of a string in a condition: non-empty. *)
Definition truthy (s : str) : bool :=
  match s with
  | [] => false
  | _ :: _ => true
  end.

(** [list(s)]: the one-character strings of [s]. *)
Definition chars (s : str) : list str := map (fun c => [c]) s.

(** [''.join(l)] *)
Definition join (l : list str) : str := concat l.

(** [sep.join(l)] *)
Fixpoint join_sep (sep : str) (l : list str) : str :=
  match l with
  | [] => []
  | [s] => s
  | s :: l' => s ++ sep ++ join_sep sep l'
  end.

Definition all_space (s : str) : Prop := Forall (fun c => isspace c = true) s.
Definition no_space (s : str) : Prop := Forall (fun c => isspace c = false) s.

(** What is left of a line after a word: nothing, or text that starts
    with whitespace. *)
Definition at_boundary (s : str) : Prop :=
  match s with
  | [] => True
  | c :: _ => isspace c = true
  end.

(** The maximal whitespace-free substrings of a line, left to right: the
    line is whitespace, then a non-empty whitespace-free word that ends
    at the end of the line or at whitespace, then the rest of the line
    cut up in the same way. *)
Inductive maximal_words : str -> list str -> Prop :=
| mw_end gap : all_space gap -> maximal_words gap []
| mw_word gap w rest ws :
    all_space gap -> w <> [] -> no_space w -> at_boundary rest ->
    maximal_words rest ws ->
    maximal_words (gap ++ w ++ rest) (w :: ws).

(** *** [chars] and [join] *)

Lemma join_chars s : join (chars s) = s.
Proof.
  unfold join, chars. induction s as [|c s IH]; simpl; [|rewrite IH];
    reflexivity.
Qed.

(** *** [split] yields the maximal words *)

Lemma maximal_words_space c s ws :
  isspace c = true -> maximal_words s ws -> maximal_words (c :: s) ws.
Proof.
  intros Hc H. destruct H as [gap Hgap | gap w rest ws Hgap Hw Hns Hb Hrest].
  - apply mw_end. constructor; assumption.
  - change (c :: gap ++ w ++ rest) with ((c :: gap) ++ w ++ rest).
    apply mw_word; auto. constructor; assumption.
Qed.

Lemma no_space_nil : no_space [].
Proof. constructor. Qed.

Lemma split_from_words s : forall cur,
  no_space cur -> maximal_words (cur ++ s) (split_from cur s).
Proof.
  induction s as [|c s IH]; intros cur Hcur; simpl.
  - destruct cur as [|a cur]; simpl.
    + apply mw_end. constructor.
    + replace (a :: cur ++ []) with ([] ++ (a :: cur) ++ [])
        by reflexivity.
      apply mw_word;
        [constructor | discriminate | assumption | exact I
        | apply mw_end; constructor].
  - destruct (isspace c) eqn:Hc.
    + pose proof (maximal_words_space c s _ Hc (IH [] no_space_nil)) as Hs.
      destruct cur as [|a cur]; simpl; [exact Hs|].
      change (a :: cur ++ c :: s) with ([] ++ (a :: cur) ++ c :: s).
      apply mw_word;
        [constructor | discriminate | assumption | exact Hc | exact Hs].
    + replace (cur ++ c :: s) with ((cur ++ [c]) ++ s)
        by (rewrite <- app_assoc; reflexivity).
      apply IH. apply Forall_app; split; [assumption|].
      constructor; [assumption | constructor].
Qed.

Lemma split_from_gap gap s :
  all_space gap -> split_from [] (gap ++ s) = split_from [] s.
Proof.
  induction 1 as [|c gap Hc _ IH]; simpl; [reflexivity|].
  rewrite Hc. exact IH.
Qed.

Lemma split_from_word w : forall cur rest,
  no_space w -> split_from cur (w ++ rest) = split_from (cur ++ w) rest.
Proof.
  induction w as [|c w IH]; intros cur rest Hw; simpl.
  - now rewrite app_nil_r.
  - inversion Hw as [|? ? Hc Hw']; subst. rewrite Hc.
    rewrite IH by assumption. now rewrite <- app_assoc.
Qed.

Lemma split_from_boundary cur rest :
  cur <> [] -> at_boundary rest ->
  split_from cur rest = cur :: split_from [] rest.
Proof.
  intros Hcur Hb. destruct rest as [|c rest]; simpl in *.
  - destruct cur; [contradiction | reflexivity].
  - rewrite Hb. destruct cur; [contradiction | reflexivity].
Qed.

Lemma maximal_words_split s ws : maximal_words s ws -> ws = split s.
Proof.
  unfold split. induction 1 as [gap Hgap | gap w rest ws Hgap Hw Hns Hb _ IH].
  - rewrite <- (app_nil_r gap). rewrite split_from_gap by assumption.
    reflexivity.
  - rewrite split_from_gap by assumption.
    rewrite split_from_word by assumption. simpl.
    rewrite split_from_boundary by assumption. now rewrite IH.
Qed.

(** *** Joining the words of [split] *)

Definition is_word (w : str) : Prop := w <> [] /\ no_space w.

Lemma maximal_words_are_words s ws : maximal_words s ws -> Forall is_word ws.
Proof.
  induction 1 as [gap Hgap | gap w rest ws Hgap Hw Hns Hb _ IH];
    constructor; [split; assumption | exact IH].
Qed.

Lemma maximal_words_join ws :
  Forall is_word ws -> maximal_words (join_sep [32%N] ws) ws.
Proof.
  induction 1 as [|w ws [Hw Hns] Hws IH]; [apply mw_end; constructor|].
  destruct ws as [|w' ws].
  - simpl. rewrite <- (app_nil_r w) at 1.
    change (maximal_words ([] ++ w ++ []) [w]).
    apply mw_word;
      [constructor | assumption | assumption | exact I
      | apply mw_end; constructor].
  - change (join_sep [32%N] (w :: w' :: ws))
      with ([] ++ w ++ 32%N :: join_sep [32%N] (w' :: ws)).
    apply mw_word;
      [constructor | assumption | assumption | reflexivity|].
    apply maximal_words_space; [reflexivity | exact IH].
Qed.

End Str.

(** ** Exceptions *)

Module Exn.

Import Str.

(** The exceptions that the embedded functions raise themselves. *)
Inductive exn :=
| AssertionError (msg : str)
| KeyError (key : str)
| ValueError
| InvalidArgumentError.

Inductive result (A : Type) :=
| Ok (a : A)
| Raise (e : exn).
Arguments Ok {A} a.
Arguments Raise {A} e.

Definition is_assertion_failure {A} (r : result A) : Prop :=
  exists msg, r = Raise (AssertionError msg).

Definition returns {A} (r : result A) : Prop := exists a, r = Ok a.

Lemma returns_Ok {A} (a : A) : returns (Ok a).
Proof. now exists a. Qed.

Lemma assertion_failure_Raise {A} msg :
  is_assertion_failure (Raise (A := A) (AssertionError msg)).
Proof. now exists msg. Qed.

Lemma returns_not_failure {A} (r : result A) :
  returns r -> ~ is_assertion_failure r.
Proof. intros [a ->] [msg H]. discriminate H. Qed.

End Exn.

(** ** Text preprocessing: tokenize, truncate_pad, build_array_nmt *)

Module Text.

Import Str Exn.

(** [tokenize(lines, token='word')]:
    [assert token in ('word', 'char'), 'Unknown token type: ' + token]
    [return [line.split() if token == 'word' else list(line)
             for line in lines]] *)
Definition tokenize (lines : list str) (token : str)
    : result (list (list str)) :=
  if bool_decide (token ∈ [py "word"; py "char"]) then
    Ok (map (fun line =>
               if bool_decide (token = py "word") then split line
               else chars line) lines)
  else Raise (AssertionError (py "Unknown token type: " ++ token)).

(** [truncate_pad(line, num_steps, padding_token)]:
    [if len(line) > num_steps: return line[:num_steps]]
    [return line + [padding_token] * (num_steps - len(line))] *)
Definition truncate_pad {A} (line : list A) (num_steps : Z) (padding_token : A)
    : list A :=
  if Py.len line >? num_steps then Py.slice_to line num_steps
  else line ++ Py.list_mul padding_token (num_steps - Py.len line).

(** *** tokenize *)

Lemma tokenize_word lines :
  tokenize lines (py "word") = Ok (map split lines).
Proof. reflexivity. Qed.

Lemma tokenize_char lines :
  tokenize lines (py "char") = Ok (map chars lines).
Proof. reflexivity. Qed.

Lemma tokenize_known lines token :
  token ∈ [py "word"; py "char"] -> returns (tokenize lines token).
Proof.
  intros H. unfold tokenize. rewrite bool_decide_eq_true_2 by assumption.
  apply returns_Ok.
Qed.

Lemma tokenize_unknown lines token :
  token ∉ [py "word"; py "char"] ->
  tokenize lines token
  = Raise (AssertionError (py "Unknown token type: " ++ token)).
Proof.
  intros H. unfold tokenize. now rewrite bool_decide_eq_false_2 by assumption.
Qed.

(** C8: in 'char' mode the tokens of every line join back to the line;
    in 'word' mode the tokens of every line are its maximal
    whitespace-free substrings, and nothing else is. *)
Theorem tokenize_char_word (lines : list str) :
  (exists toks, tokenize lines (py "char") = Ok toks /\
     Forall2 (fun line ts => join ts = line) lines toks) /\
  (exists toks, tokenize lines (py "word") = Ok toks /\
     Forall2 (fun line ts =>
                maximal_words line ts /\
                forall ts', maximal_words line ts' -> ts' = ts) lines toks).
Proof.
  split.
  - exists (map chars lines). split; [apply tokenize_char|].
    induction lines as [|l lines IH]; simpl; constructor;
      [apply join_chars | exact IH].
  - exists (map split lines). split; [apply tokenize_word|].
    induction lines as [|l lines IH]; simpl; constructor; [|exact IH].
    split; [exact (split_from_words l [] no_space_nil)|].
    apply maximal_words_split.
Qed.

Example tokenize_word_example :
  tokenize [py "  the time  machine "; py ""] (py "word")
  = Ok [[py "the"; py "time"; py "machine"]; []].
Proof. reflexivity. Qed.

(** *** truncate_pad *)

Lemma len_truncate_pad {A} (line : list A) (S : Z) (pad : A) :
  0 <= S -> Py.len (truncate_pad line S pad) = S.
Proof.
  intros HS. unfold truncate_pad, Py.slice_to, Py.list_mul, Py.len.
  destruct (Z.gtb_spec (Z.of_nat (length line)) S) as [Hgt | Hle].
  - rewrite (proj2 (Z.leb_le 0 S) HS), length_firstn. lia.
  - rewrite length_app, repeat_length. lia.
Qed.

(** C3: for a token list of length [L] and a step count [S], the result
    has length [S]: the first [S] tokens when [L > S], the list followed
    by [S - L] padding tokens when [L <= S]. *)
Theorem truncate_pad_length {A} (line : list A) (S : Z) (pad : A) :
  0 <= S ->
  Py.len (truncate_pad line S pad) = S /\
  (Py.len line > S -> truncate_pad line S pad = firstn (Z.to_nat S) line) /\
  (Py.len line <= S ->
   truncate_pad line S pad = line ++ repeat pad (Z.to_nat (S - Py.len line))).
Proof.
  intros HS. split; [now apply len_truncate_pad|].
  unfold truncate_pad, Py.slice_to, Py.list_mul, Py.len.
  destruct (Z.gtb_spec (Z.of_nat (length line)) S) as [Hgt | Hle].
  - rewrite (proj2 (Z.leb_le 0 S) HS). split; [reflexivity | lia].
  - split; [lia | reflexivity].
Qed.

Lemma truncate_pad_length_witness :
  Py.len (truncate_pad [5; 6; 7] 2 0) = 2 /\
  Py.len (truncate_pad [5; 6; 7] 5 0) = 5.
Proof.
  split.
  - apply (truncate_pad_length [5; 6; 7] 2 0). lia.
  - apply (truncate_pad_length [5; 6; 7] 5 0). lia.
Defined.

(** *** Further properties *)

(** X1: the word tokens of any lines, joined by single spaces and
    tokenized again, are the same tokens. *)
Theorem tokenize_join_tokenize (lines : list str) (toks : list (list str)) :
  tokenize lines (py "word") = Ok toks ->
  tokenize (map (join_sep (py " ")) toks) (py "word") = Ok toks.
Proof.
  rewrite !tokenize_word. intros [= <-]. f_equal.
  rewrite !map_map. apply map_ext. intros line.
  symmetry. apply maximal_words_split. apply maximal_words_join.
  apply (maximal_words_are_words line).
  exact (split_from_words line [] no_space_nil).
Qed.

Lemma tokenize_join_tokenize_witness :
  tokenize (map (join_sep (py " ")) [[py "go"; py "now"; py "."]])
    (py "word")
  = Ok [[py "go"; py "now"; py "."]].
Proof.
  apply (tokenize_join_tokenize [py " go  now . "]). reflexivity.
Defined.

(** X2: padding or truncating to the same step count a second time
    changes nothing. *)
Theorem truncate_pad_idempotent {A} (line : list A) (S : Z) (pad : A) :
  0 <= S ->
  truncate_pad (truncate_pad line S pad) S pad = truncate_pad line S pad.
Proof.
  intros HS. pose proof (len_truncate_pad line S pad HS) as Hlen.
  unfold truncate_pad at 1. rewrite Hlen.
  destruct (Z.gtb_spec S S) as [Hgt | _]; [lia|].
  rewrite Z.sub_diag. unfold Py.list_mul. simpl. apply app_nil_r.
Qed.

Lemma truncate_pad_idempotent_witness :
  truncate_pad (truncate_pad [5; 6; 7] 5 0) 5 0 = truncate_pad [5; 6; 7] 5 0.
Proof. apply truncate_pad_idempotent. lia. Defined.

(** X3: a negative step count pads nothing: the result is the line
    without its last [- num_steps] tokens, empty when the line has no
    more than that. *)
Theorem truncate_pad_negative {A} (line : list A) (S : Z) (pad : A) :
  S < 0 ->
  truncate_pad line S pad
  = firstn (length line - Z.to_nat (- S)) line.
Proof.
  intros HS. unfold truncate_pad, Py.slice_to, Py.len.
  destruct (Z.gtb_spec (Z.of_nat (length line)) S) as [_ | Hle]; [|lia].
  destruct (Z.leb_spec 0 S) as [H0 | _]; [lia|].
  f_equal. lia.
Qed.

Lemma truncate_pad_negative_witness :
  truncate_pad [5; 6; 7] (-1) 0 = [5; 6].
Proof. apply (truncate_pad_negative [5; 6; 7] (-1) 0). lia. Defined.

End Text.

(** ** Minibatches for machine translation: build_array_nmt *)

Module Nmt.

Import Str Exn Text.

(** An integer tensor of rank 1 or 2, as nested lists. *)
Inductive tensor :=
| T1 (v : list Z)
| T2 (rows : list (list Z)).

(** [tf.constant(l)] for a list of lists of Python ints: the empty list
    is a rank-1 tensor of shape (0,); rows of unequal length are
    refused. *)
Definition tf_constant (l : list (list Z)) : result tensor :=
  match l with
  | [] => Ok (T1 [])
  | r :: rs =>
      if forallb (fun r' => (length r' =? length r)%nat) rs then Ok (T2 l)
      else Raise ValueError
  end.

(** [t != v], elementwise, and [tf.cast(_, tf.int32)] of a truth value. *)
Definition not_equal (x v : Z) : bool := negb (x =? v).
Definition cast_int32 (b : bool) : Z := if b then 1 else 0.

(** Addition of [tf.int32] values wraps around. *)
Definition wrap32 (z : Z) : Z := (z + 2 ^ 31) mod 2 ^ 32 - 2 ^ 31.
Definition add32 (a b : Z) : Z := wrap32 (a + b).

(** [tf.reduce_sum(tf.cast(t != v, tf.int32), 1)]: the sum along axis 1,
    which a rank-1 tensor does not have. *)
Definition reduce_sum_axis1 (rows : list (list Z)) : list Z :=
  map (fun r => fold_left add32 r 0) rows.

Definition count_not_equal (t : tensor) (v : Z) : result tensor :=
  match t with
  | T1 _ => Raise InvalidArgumentError
  | T2 rows =>
      Ok (T1 (reduce_sum_axis1
                (map (map (fun x => cast_int32 (not_equal x v))) rows)))
  end.

Section BuildArray.

(** [vocab[token]], the index of a token of the vocabulary (class
    [d2l.Vocab], not part of the notebook). *)
Variable vocab : str -> Z.

(** [build_array_nmt(lines, vocab, num_steps)]:
    [lines = [vocab[l] for l in lines]]
    [lines = [l + [vocab['<eos>']] for l in lines]]
    [array = tf.constant([truncate_pad(l, num_steps, vocab['<pad>'])
                          for l in lines])]
    [valid_len = tf.reduce_sum(tf.cast(array != vocab['<pad>'], tf.int32), 1)]
    [return array, valid_len] *)
Definition build_array_nmt (lines : list (list str)) (num_steps : Z)
    : result (tensor * tensor) :=
  let lines1 := map (map vocab) lines in
  let lines2 := map (fun l => l ++ [vocab (py "<eos>")]) lines1 in
  match tf_constant
          (map (fun l => truncate_pad l num_steps (vocab (py "<pad>"))) lines2)
  with
  | Raise e => Raise e
  | Ok array =>
      match count_not_equal array (vocab (py "<pad>")) with
      | Raise e => Raise e
      | Ok valid_len => Ok (array, valid_len)
      end
  end.

End BuildArray.

(** The number of entries of a row that are not [pad]. *)
Definition non_padding (pad : Z) (row : list Z) : Z :=
  Py.len (List.filter (fun x => not_equal x pad) row).

(** *** valid lengths *)

Lemma wrap32_small z : - 2 ^ 31 <= z < 2 ^ 31 -> wrap32 z = z.
Proof.
  intros Hz. unfold wrap32.
  rewrite Z.mod_small by lia. lia.
Qed.

Lemma sum_casts pad row : forall acc,
  0 <= acc -> acc + Py.len row < 2 ^ 31 ->
  fold_left add32 (map (fun x => cast_int32 (not_equal x pad)) row) acc
  = acc + non_padding pad row.
Proof.
  unfold non_padding, Py.len.
  induction row as [|x row IH]; intros acc Hacc Hlen;
    cbn [map fold_left List.filter length] in *; [simpl; lia|].
  rewrite Nat2Z.inj_succ in Hlen.
  assert (Hb : 0 <= cast_int32 (not_equal x pad) <= 1)
    by (destruct (not_equal x pad); simpl; lia).
  unfold add32 at 2. rewrite wrap32_small by lia.
  rewrite IH by lia.
  destruct (not_equal x pad); cbn [cast_int32 length];
    rewrite ?Nat2Z.inj_succ; lia.
Qed.

Lemma truncate_pad_rows {A} (pad : A) S (ls : list (list A)) :
  0 <= S ->
  Forall (fun r => Py.len r = S) (map (fun l => truncate_pad l S pad) ls).
Proof.
  intros HS. apply List.Forall_forall. intros r Hr.
  apply in_map_iff in Hr as (l & <- & _).
  now apply len_truncate_pad.
Qed.

Lemma tf_constant_rows (l : list (list Z)) S :
  l <> [] -> Forall (fun r => Py.len r = S) l -> tf_constant l = Ok (T2 l).
Proof.
  intros Hne Hl. destruct l as [|r rs]; [contradiction|]. simpl.
  inversion Hl as [|? ? Hr Hrs]; subst.
  replace (forallb _ rs) with true; [reflexivity|].
  symmetry. apply forallb_forall. intros r' Hr'.
  rewrite List.Forall_forall in Hrs. specialize (Hrs r' Hr').
  apply Nat.eqb_eq. unfold Py.len in *. lia.
Qed.

(** C9: a batch built from at least one line, with a step count that
    [tf.int32] can hold, pairs each padded row of length [num_steps]
    with the number of its entries that differ from the index of
    ['<pad>']. *)
Theorem valid_len_counts_non_padding (vocab : str -> Z)
    (lines : list (list str)) (num_steps : Z) :
  lines <> [] -> 0 <= num_steps < 2 ^ 31 ->
  exists rows,
    build_array_nmt vocab lines num_steps
    = Ok (T2 rows, T1 (map (non_padding (vocab (py "<pad>"))) rows)) /\
    length rows = length lines /\
    Forall (fun row => Py.len row = num_steps) rows.
Proof.
  intros Hne [H0 Hlt]. unfold build_array_nmt.
  set (pad := vocab (py "<pad>")).
  set (rows := map (fun l => truncate_pad l num_steps pad) _).
  assert (Hrows : Forall (fun r => Py.len r = num_steps) rows)
    by now apply truncate_pad_rows.
  assert (Hlen : length rows = length lines)
    by (unfold rows; now rewrite !length_map).
  exists rows. split; [|split; assumption].
  rewrite (tf_constant_rows rows num_steps); [|
    intros Hnil; rewrite Hnil in Hlen; destruct lines; [auto | discriminate]
    | assumption].
  simpl. do 3 f_equal. unfold reduce_sum_axis1. rewrite map_map.
  apply map_ext_in. intros row Hrow.
  rewrite List.Forall_forall in Hrows. specialize (Hrows row Hrow).
  rewrite sum_casts by lia. lia.
Qed.

(** A toy vocabulary: ['<pad>'] is 0, ['<eos>'] is 2, any other token
    is 3 more than its length. *)
Definition toy_vocab (token : str) : Z :=
  if bool_decide (token = py "<pad>") then 0
  else if bool_decide (token = py "<eos>") then 2
  else 3 + Py.len token.

Example build_array_nmt_example :
  build_array_nmt toy_vocab [[py "go"; py "."]; [py "hi"]] 4
  = Ok (T2 [[5; 4; 2; 0]; [5; 2; 0; 0]], T1 [3; 2]).
Proof. reflexivity. Qed.

Lemma valid_len_counts_non_padding_witness :
  exists rows,
    build_array_nmt toy_vocab [[py "go"; py "."]; [py "hi"]] 4
    = Ok (T2 rows, T1 (map (non_padding (toy_vocab (py "<pad>"))) rows)) /\
    length rows = length [[py "go"; py "."]; [py "hi"]] /\
    Forall (fun row => Py.len row = 4) rows.
Proof.
  apply (valid_len_counts_non_padding toy_vocab
           [[py "go"; py "."]; [py "hi"]] 4).
  - discriminate.
  - lia.
Defined.

(** *** Valid lengths when no token has the index of the padding *)

Lemma non_padding_all pad row :
  Forall (fun x => x <> pad) row -> non_padding pad row = Py.len row.
Proof.
  unfold non_padding, Py.len, not_equal.
  induction 1 as [|x row Hx _ IH]; [reflexivity|]. cbn [List.filter].
  destruct (Z.eqb_spec x pad) as [Heq | _]; [contradiction|].
  cbn [negb length]. rewrite !Nat2Z.inj_succ. lia.
Qed.

Lemma non_padding_app pad row1 row2 :
  non_padding pad (row1 ++ row2)
  = non_padding pad row1 + non_padding pad row2.
Proof.
  unfold non_padding, Py.len. rewrite List.filter_app, length_app. lia.
Qed.

Lemma non_padding_pad pad n : non_padding pad (repeat pad n) = 0.
Proof.
  unfold non_padding, Py.len, not_equal.
  induction n as [|n IH]; [reflexivity|]. cbn [repeat List.filter].
  rewrite Z.eqb_refl. exact IH.
Qed.

Lemma non_padding_truncate_pad pad row S :
  0 <= S -> Forall (fun x => x <> pad) row ->
  non_padding pad (truncate_pad row S pad) = Z.min (Py.len row) S.
Proof.
  intros HS Hrow. unfold truncate_pad, Py.slice_to, Py.list_mul.
  destruct (Z.gtb_spec (Py.len row) S) as [Hgt | Hle].
  - rewrite (proj2 (Z.leb_le 0 S) HS).
    rewrite non_padding_all by (now apply Forall_take).
    unfold Py.len in *. rewrite length_firstn. lia.
  - rewrite non_padding_app, non_padding_pad, non_padding_all by assumption.
    lia.
Qed.

(** X4: when neither a token of the lines nor ['<eos>'] has the index of
    ['<pad>'], the valid length of a line of [n] tokens is [n + 1] (the
    tokens and ['<eos>']), cut down to [num_steps] for a longer line. *)
Theorem valid_len_is_length (vocab : str -> Z) (lines : list (list str))
    (num_steps : Z) :
  lines <> [] -> 0 <= num_steps < 2 ^ 31 ->
  vocab (py "<eos>") <> vocab (py "<pad>") ->
  Forall (Forall (fun token => vocab token <> vocab (py "<pad>"))) lines ->
  exists rows,
    build_array_nmt vocab lines num_steps
    = Ok (T2 rows,
          T1 (map (fun l => Z.min (Py.len l + 1) num_steps) lines)).
Proof.
  intros Hne [H0 Hlt] Heos Htok. unfold build_array_nmt.
  set (pad := vocab (py "<pad>")) in *.
  set (rows := map (fun l => truncate_pad l num_steps pad) _).
  assert (Hrows : Forall (fun r => Py.len r = num_steps) rows)
    by now apply truncate_pad_rows.
  exists rows.
  rewrite (tf_constant_rows rows num_steps);
    [| unfold rows; destruct lines; [contradiction | discriminate]
     | assumption].
  simpl. do 3 f_equal. unfold reduce_sum_axis1, rows.
  rewrite !map_map. apply map_ext_in. intros l Hl.
  rewrite sum_casts;
    [| lia | rewrite len_truncate_pad by assumption; lia].
  rewrite non_padding_truncate_pad.
  - unfold Py.len. rewrite length_app, length_map. simpl. lia.
  - assumption.
  - apply Forall_app. split; [|now constructor].
    rewrite List.Forall_forall in Htok. specialize (Htok l Hl).
    rewrite List.Forall_forall in Htok |- *. intros x Hx.
    apply in_map_iff in Hx as (t & <- & Ht). now apply Htok.
Qed.

Lemma valid_len_is_length_witness :
  exists rows,
    build_array_nmt toy_vocab [[py "go"; py "."]; [py "hi"]] 2
    = Ok (T2 rows, T1 [2; 2]).
Proof.
  apply (valid_len_is_length toy_vocab [[py "go"; py "."]; [py "hi"]] 2).
  - discriminate.
  - lia.
  - discriminate.
  - repeat constructor; discriminate.
Defined.

End Nmt.

(** ** os.path on POSIX, for the examples *)

Module OsPath.

Import Str.

(** [s.rfind(c)]: the last index of [c], or -1. *)
Fixpoint rfind_from (c : char) (s : str) (i last : Z) : Z :=
  match s with
  | [] => last
  | x :: s' => rfind_from c s' (i + 1) (if (x =? c)%N then i else last)
  end.

Definition rfind (c : char) (s : str) : Z := rfind_from c s 0 (-1).

Definition slash : char := 47%N.
Definition dot : char := 46%N.

(** [os.path.splitext(p)]: cut at the last dot of the last component,
    unless that component has only dots before it. *)
Definition splitext (p : str) : str * str :=
  let sepIndex := rfind slash p in
  let dotIndex := rfind dot p in
  if (dotIndex >? sepIndex)
     && existsb (fun x => negb (x =? dot)%N)
          (skipn (Z.to_nat (sepIndex + 1)) (firstn (Z.to_nat dotIndex) p))
  then (firstn (Z.to_nat dotIndex) p, skipn (Z.to_nat dotIndex) p)
  else (p, []).

(** [s.rstrip('/')] *)
Fixpoint lstrip_slash (s : str) : str :=
  match s with
  | [] => []
  | x :: s' => if (x =? slash)%N then lstrip_slash s' else s
  end.

Definition rstrip_slash (s : str) : str := rev (lstrip_slash (rev s)).

(** [os.path.dirname(p)] *)
Definition dirname (p : str) : str :=
  let head := firstn (Z.to_nat (rfind slash p + 1)) p in
  if forallb (fun x => (x =? slash)%N) head then head
  else rstrip_slash head.

(** [os.path.join(a, b)] *)
Definition join (a b : str) : str :=
  if startswith b [slash] then b
  else if negb (truthy a) || bool_decide (List.last a 0%N = slash) then a ++ b
  else a ++ [slash] ++ b.

End OsPath.

(** ** Files: download, extract, download_extract *)

Module Files.

Import Str Exn.

Definition bytes := list Byte.byte.

(** Calls into the libraries that act on the outside world, in the order
    the functions make them. *)
Inductive event :=
| MakeDirs (folder : str)
| Stdout (msg : str)
| HttpGet (url : str)
| ZipOpen (filename : str)
| TarOpen (filename : str)
| ExtractAll (folder : str).

(** What a call leaves behind: its value or exception, the regular files
    on disk with their contents, and the library calls it made.
    Directories and the files that an archive unpacks are not part of the
    disk here ([MakeDirs] and [ExtractAll] stand for them), and a library
    call is taken to succeed. *)
Record outcome (A : Type) := mk {
  value : result A;
  files : gmap str bytes;
  trace : list event
}.
Arguments mk {A}.
Arguments value {A}.
Arguments files {A}.
Arguments trace {A}.

Definition fetched {A} (o : outcome A) : Prop :=
  exists url, In (HttpGet url) (trace o).

Section Files.

(** [hashlib.sha1()]: the state of a hash, [sha1.update(data)] and
    [sha1.hexdigest()]. *)
Variable sha1_state : Type.
Variable sha1_new : sha1_state.
Variable sha1_update : sha1_state -> bytes -> sha1_state.
Variable sha1_hexdigest : sha1_state -> str.

(** [requests.get(url, stream=True, verify=True).content] *)
Variable requests_get : str -> bytes.

(** [DATA_HUB]: dataset name to (url, sha-1). *)
Variable DATA_HUB : gmap str (str * str).

(** [os.path.join] of two components, [os.path.dirname] and
    [os.path.splitext]. *)
Variable path_join : str -> str -> str.
Variable path_dirname : str -> str.
Variable path_splitext : str -> str * str.

(** [url.split('/')[-1]] *)
Definition basename (url : str) : str := List.last (split_sep 47%N url) [].

(** [f.read(1048576)]: the next block of the file and what is left to
    read; the block is empty at the end of the file. *)
Definition block_size : nat := Z.to_nat 1048576.

Definition read (rest : bytes) : bytes * bytes :=
  (firstn block_size rest, skipn block_size rest).

(** [while True: data = f.read(1048576); if not data: break;
    sha1.update(data)], for at most [fuel] reads. *)
Fixpoint hash_blocks (fuel : nat) (rest : bytes) (sha1 : sha1_state)
    : sha1_state :=
  match fuel with
  | O => sha1
  | S fuel' =>
      match read rest with
      | ([], _) => sha1
      | (data, rest') => hash_blocks fuel' rest' (sha1_update sha1 data)
      end
  end.

(** The digest that [download] computes for a file: a file of [n] bytes
    is read to its end by [n + 1] reads. *)
Definition file_hexdigest (content : bytes) : str :=
  sha1_hexdigest (hash_blocks (S (length content)) content sha1_new).

(** The test that guards the early return of [download]:
    [os.path.exists(fname) and sha1_hash], then
    [sha1.hexdigest() == sha1_hash]. *)
Definition cache_hit (fs : gmap str bytes) (fname : str)
    (sha1_hash : option str) : bool :=
  match fs !! fname, sha1_hash with
  | Some content, Some h =>
      truthy h && bool_decide (file_hexdigest content = h)
  | _, _ => false
  end.

(** [download(url, folder='../data', sha1_hash=None)] *)
Definition download (url folder : str) (sha1_hash : option str)
    (fs : gmap str bytes) : outcome str :=
  let resolved :=
    if negb (startswith url (py "http")) then
      match DATA_HUB !! url with
      | Some (url', h) => Ok (url', Some h)
      | None => Raise (KeyError url)
      end
    else Ok (url, sha1_hash) in
  match resolved with
  | Raise e => mk (Raise e) fs []
  | Ok (url, sha1_hash) =>
      let fname := path_join folder (basename url) in
      if cache_hit fs fname sha1_hash then
        mk (Ok fname) fs [MakeDirs folder]
      else
        mk (Ok fname) (<[fname := requests_get url]> fs)
           [MakeDirs folder;
            Stdout (py "Downloading " ++ fname ++ py " from " ++ url
                   ++ py "...");
            HttpGet url]
  end.

(** [extract(filename, folder=None)]; the assertion comes before the
    archive is opened. *)
Definition extract (filename : str) (folder : option str)
    : result unit * list event :=
  let base_dir := path_dirname filename in
  let ext := snd (path_splitext filename) in
  if bool_decide (ext ∈ [py ".zip"; py ".tar"; py ".gz"]) then
    let fp :=
      if bool_decide (ext = py ".zip") then ZipOpen filename
      else TarOpen filename in
    let folder := match folder with None => base_dir | Some f => f end in
    (Ok tt, [fp; ExtractAll folder])
  else (Raise (AssertionError (py "Only support zip/tar files.")), []).

(** [download_extract(name, folder=None)] *)
Definition download_extract (name : str) (folder : option str)
    (fs : gmap str bytes) : outcome str :=
  let d := download name (py "../data") None fs in
  match value d with
  | Raise e => mk (Raise e) (files d) (trace d)
  | Ok fname =>
      let base_dir := path_dirname fname in
      let '(data_dir, ext) := path_splitext fname in
      let fp :=
        if bool_decide (ext = py ".zip") then Ok (ZipOpen fname)
        else if bool_decide (ext ∈ [py ".tar"; py ".gz"]) then
          Ok (TarOpen fname)
        else Raise (AssertionError (py "Only zip/tar files can be extracted."))
      in
      match fp with
      | Raise e => mk (Raise e) (files d) (trace d)
      | Ok open_archive =>
          mk (Ok (match folder with
                  | Some f => if truthy f then path_join base_dir f
                              else data_dir
                  | None => data_dir
                  end))
             (files d)
             (trace d ++ [open_archive; ExtractAll base_dir])
      end
  end.

(** The SHA-1 digest of a byte string: that of a hash fed with it. *)
Definition sha1 (content : bytes) : str :=
  sha1_hexdigest (sha1_update sha1_new content).

(** The file [fname] is on disk and its SHA-1 digest is the given
    checksum. *)
Definition cached (fs : gmap str bytes) (fname : str)
    (sha1_hash : option str) : Prop :=
  exists content,
    fs !! fname = Some content /\ sha1_hash = Some (sha1 content).

(** hashlib: feeding a hash in pieces is feeding it the concatenation,
    and a SHA-1 hex digest has 40 digits. *)
Hypothesis sha1_update_app :
  forall h a b, sha1_update (sha1_update h a) b = sha1_update h (a ++ b).
Hypothesis sha1_update_nil : forall h, sha1_update h [] = h.
Hypothesis sha1_hexdigest_length :
  forall h, length (sha1_hexdigest h) = 40%nat.

(** *** download *)

Lemma block_size_pos : (0 < block_size)%nat.
Proof. unfold block_size. lia. Qed.

Lemma hash_blocks_all fuel : forall rest h,
  (length rest < fuel)%nat -> hash_blocks fuel rest h = sha1_update h rest.
Proof.
  pose proof block_size_pos as Hpos.
  induction fuel as [|fuel IH]; intros rest h Hfuel; [lia|].
  cbn [hash_blocks]. unfold read.
  pose proof (firstn_skipn block_size rest) as Hsplit.
  pose proof (length_skipn block_size rest) as Hskip.
  destruct (firstn block_size rest) as [|b data] eqn:Hdata.
  - assert (Hrest : rest = []).
    { destruct rest as [|x rest]; [reflexivity|].
      destruct block_size; [lia | discriminate Hdata]. }
    subst rest. now rewrite sha1_update_nil.
  - rewrite IH.
    + now rewrite sha1_update_app, Hsplit.
    + destruct rest as [|x rest]; [now rewrite firstn_nil in Hdata|].
      cbn [length] in Hfuel, Hskip. lia.
Qed.

Lemma file_hexdigest_sha1 content : file_hexdigest content = sha1 content.
Proof.
  unfold file_hexdigest, sha1. rewrite hash_blocks_all by lia. reflexivity.
Qed.

Lemma truthy_digest h : truthy (sha1_hexdigest h) = true.
Proof.
  pose proof (sha1_hexdigest_length h) as H.
  destruct (sha1_hexdigest h); [discriminate H | reflexivity].
Qed.

Lemma cache_hit_cached fs fname sha1_hash :
  cache_hit fs fname sha1_hash = true <-> cached fs fname sha1_hash.
Proof.
  unfold cache_hit, cached. split.
  - destruct (fs !! fname) as [content|]; [|discriminate].
    destruct sha1_hash as [h|]; [|discriminate].
    intros H. apply andb_true_iff in H as [_ H].
    apply bool_decide_eq_true in H. exists content.
    now rewrite <- file_hexdigest_sha1, H.
  - intros (content & -> & ->). unfold sha1 at 1. rewrite truthy_digest.
    simpl. apply bool_decide_eq_true. apply file_hexdigest_sha1.
Qed.

(** C7: for a url (a name that starts with 'http'), [download] returns
    the path of the file in the target folder; it makes no request and
    leaves the disk as it is when that file exists with a SHA-1 digest
    equal to the given checksum, and in every other case it requests the
    url and writes the response to that path. *)
Theorem download_skips_on_match (url folder : str) (sha1_hash : option str)
    (fs : gmap str bytes) :
  startswith url (py "http") = true ->
  value (download url folder sha1_hash fs)
  = Ok (path_join folder (basename url)) /\
  (cached fs (path_join folder (basename url)) sha1_hash ->
   ~ fetched (download url folder sha1_hash fs) /\
   files (download url folder sha1_hash fs) = fs) /\
  (~ cached fs (path_join folder (basename url)) sha1_hash ->
   In (HttpGet url) (trace (download url folder sha1_hash fs)) /\
   files (download url folder sha1_hash fs)
   = <[path_join folder (basename url) := requests_get url]> fs).
Proof.
  intros Hhttp. unfold download. rewrite Hhttp. simpl.
  destruct (cache_hit fs (path_join folder (basename url)) sha1_hash)
    eqn:Hhit; simpl.
  - apply cache_hit_cached in Hhit.
    split; [reflexivity|]. split; [|intros Hn; contradiction].
    intros _. split; [|reflexivity].
    intros [u [Hu | []]]. discriminate Hu.
  - assert (Hn : ~ cached fs (path_join folder (basename url)) sha1_hash).
    { intros Hc. apply cache_hit_cached in Hc. congruence. }
    split; [reflexivity|]. split; [intros Hc; contradiction|].
    intros _. split; [|reflexivity].
    right; right; left; reflexivity.
Qed.

(** A dataset name is looked up in [DATA_HUB]; the url and the checksum
    of the entry replace the arguments. *)
Lemma download_hub_name (name folder : str) (sha1_hash : option str)
    (fs : gmap str bytes) :
  startswith name (py "http") = false ->
  match DATA_HUB !! name with
  | Some (url, h) =>
      startswith url (py "http") = true ->
      download name folder sha1_hash fs = download url folder (Some h) fs
  | None => download name folder sha1_hash fs = mk (Raise (KeyError name)) fs []
  end.
Proof.
  intros Hname. destruct (DATA_HUB !! name) as [[url h]|] eqn:Hhub.
  - intros Hurl. unfold download. rewrite Hname, Hhub, Hurl. reflexivity.
  - unfold download. rewrite Hname, Hhub. reflexivity.
Qed.

(** *** extract and download_extract *)

Lemma extract_supported filename folder :
  snd (path_splitext filename) ∈ [py ".zip"; py ".tar"; py ".gz"] ->
  exists open_archive dest,
    extract filename folder = (Ok tt, [open_archive; ExtractAll dest]).
Proof.
  intros Hext. unfold extract.
  rewrite bool_decide_eq_true_2 by assumption. eauto.
Qed.

Lemma extract_unsupported filename folder :
  snd (path_splitext filename) ∉ [py ".zip"; py ".tar"; py ".gz"] ->
  extract filename folder
  = (Raise (AssertionError (py "Only support zip/tar files.")), []).
Proof.
  intros Hext. unfold extract.
  now rewrite bool_decide_eq_false_2 by assumption.
Qed.

(** X22: [download_extract] asserts as well, but only after the download:
    when the downloaded file has an extension other than .zip, .tar and
    .gz, the call fails with an AssertionError, and the files written and
    the library calls made are those of the download. *)
Lemma download_extract_unsupported name folder fs fname :
  value (download name (py "../data") None fs) = Ok fname ->
  snd (path_splitext fname) ∉ [py ".zip"; py ".tar"; py ".gz"] ->
  download_extract name folder fs
  = mk (Raise (AssertionError (py "Only zip/tar files can be extracted.")))
       (files (download name (py "../data") None fs))
       (trace (download name (py "../data") None fs)).
Proof.
  intros Hd Hext. unfold download_extract. rewrite Hd.
  destruct (path_splitext fname) as [data_dir ext]. simpl in Hext.
  rewrite bool_decide_eq_false_2
    by (intros ->; apply Hext; repeat constructor).
  rewrite bool_decide_eq_false_2; [reflexivity|].
  intros Hin. apply Hext. now constructor.
Qed.

(** C6: [extract] fails with an AssertionError, before it calls any
    library, exactly when the extension of the file name is none of
    .zip, .tar, .gz, and otherwise goes on to unpack; [tokenize] fails
    with an AssertionError exactly when the token mode is neither 'word'
    nor 'char', and otherwise returns the token lists.  The failure is
    the outcome of the call: nothing in either function catches it. *)
Theorem unsupported_input_asserts (filename : str) (folder : option str)
    (lines : list str) (token : str) :
  (snd (path_splitext filename) ∉ [py ".zip"; py ".tar"; py ".gz"] <->
   is_assertion_failure (fst (extract filename folder))) /\
  (is_assertion_failure (fst (extract filename folder)) ->
   snd (extract filename folder) = []) /\
  (snd (path_splitext filename) ∈ [py ".zip"; py ".tar"; py ".gz"] <->
   returns (fst (extract filename folder))) /\
  (token ∉ [py "word"; py "char"] <->
   is_assertion_failure (Text.tokenize lines token)) /\
  (token ∈ [py "word"; py "char"] <->
   returns (Text.tokenize lines token)).
Proof.
  assert (Hextract :
    snd (path_splitext filename) ∈ [py ".zip"; py ".tar"; py ".gz"] ->
    returns (fst (extract filename folder))).
  { intros Hin. destruct (extract_supported filename folder Hin)
      as (o & d & ->). apply returns_Ok. }
  assert (Hassert :
    snd (path_splitext filename) ∉ [py ".zip"; py ".tar"; py ".gz"] ->
    is_assertion_failure (fst (extract filename folder))).
  { intros Hout. rewrite extract_unsupported by assumption.
    apply assertion_failure_Raise. }
  assert (Htok :
    token ∉ [py "word"; py "char"] ->
    is_assertion_failure (Text.tokenize lines token)).
  { intros Hout. rewrite Text.tokenize_unknown by assumption.
    apply assertion_failure_Raise. }
  split; [|split; [|split; [|split]]].
  - split; [exact Hassert|]. intros Hfail Hin.
    exact (returns_not_failure _ (Hextract Hin) Hfail).
  - intros Hfail.
    destruct (decide (snd (path_splitext filename)
                      ∈ [py ".zip"; py ".tar"; py ".gz"])) as [Hin | Hout].
    + destruct (returns_not_failure _ (Hextract Hin) Hfail).
    + now rewrite extract_unsupported.
  - split; [exact Hextract|]. intros Hret.
    destruct (decide (snd (path_splitext filename)
                      ∈ [py ".zip"; py ".tar"; py ".gz"])) as [Hin | Hout];
      [assumption|].
    destruct (returns_not_failure _ Hret (Hassert Hout)).
  - split; [exact Htok|]. intros Hfail Hin.
    exact (returns_not_failure _ (Text.tokenize_known lines token Hin) Hfail).
  - split; [apply Text.tokenize_known|]. intros Hret.
    destruct (decide (token ∈ [py "word"; py "char"])) as [Hin | Hout];
      [assumption|].
    destruct (returns_not_failure _ Hret (Htok Hout)).
Qed.

(** *** Downloading again *)

Lemma download_fetches url folder sha1_hash fs :
  startswith url (py "http") = true ->
  ~ cached fs (path_join folder (basename url)) sha1_hash ->
  download url folder sha1_hash fs
  = mk (Ok (path_join folder (basename url)))
       (<[path_join folder (basename url) := requests_get url]> fs)
       [MakeDirs folder;
        Stdout (py "Downloading " ++ path_join folder (basename url)
                ++ py " from " ++ url ++ py "...");
        HttpGet url].
Proof.
  intros Hhttp Hnot. unfold download. rewrite Hhttp. simpl.
  destruct (cache_hit fs (path_join folder (basename url)) sha1_hash)
    eqn:Hhit; [|reflexivity].
  apply cache_hit_cached in Hhit. contradiction.
Qed.

Lemma download_hits url folder sha1_hash fs :
  startswith url (py "http") = true ->
  cached fs (path_join folder (basename url)) sha1_hash ->
  download url folder sha1_hash fs
  = mk (Ok (path_join folder (basename url))) fs [MakeDirs folder].
Proof.
  intros Hhttp Hc. unfold download. rewrite Hhttp. simpl.
  now rewrite (proj2 (cache_hit_cached _ _ _) Hc).
Qed.

(** X9: a name that does not start with 'http' is a key of [DATA_HUB]:
    when the key is missing the call raises KeyError before it touches
    the disk or the network, and when it is there the call is the
    download of the url of the entry with the checksum of the entry,
    whatever checksum was passed. *)
Theorem download_by_name (name folder : str) (sha1_hash : option str)
    (fs : gmap str bytes) :
  startswith name (py "http") = false ->
  (DATA_HUB !! name = None ->
   download name folder sha1_hash fs = mk (Raise (KeyError name)) fs []) /\
  (forall url h,
     DATA_HUB !! name = Some (url, h) ->
     startswith url (py "http") = true ->
     download name folder sha1_hash fs = download url folder (Some h) fs).
Proof.
  intros Hname. split.
  - intros Hhub. unfold download. now rewrite Hname, Hhub.
  - intros url h Hhub Hurl. unfold download.
    now rewrite Hname, Hhub, Hurl.
Qed.

(** X7: after a download that fetched a url, a download of the same url
    to the same folder with the checksum of the content that was served
    returns the same path, makes no request and leaves the disk as the
    first download left it. *)
Theorem download_again_is_cached (url folder : str)
    (sha1_hash : option str) (fs : gmap str bytes) :
  startswith url (py "http") = true ->
  ~ cached fs (path_join folder (basename url)) sha1_hash ->
  value (download url folder (Some (sha1 (requests_get url)))
           (files (download url folder sha1_hash fs)))
  = value (download url folder sha1_hash fs) /\
  ~ fetched (download url folder (Some (sha1 (requests_get url)))
               (files (download url folder sha1_hash fs))) /\
  files (download url folder (Some (sha1 (requests_get url)))
           (files (download url folder sha1_hash fs)))
  = files (download url folder sha1_hash fs).
Proof.
  intros Hhttp Hnot.
  rewrite (download_fetches url folder sha1_hash fs) by assumption.
  cbn [files value].
  rewrite download_hits;
    [| assumption
     | exists (requests_get url); split;
         [apply lookup_insert_eq | reflexivity]].
  cbn [files value trace]. split; [reflexivity|]. split; [|reflexivity].
  intros [u [Hu | []]]. discriminate Hu.
Qed.

End Files.

(** *** Examples on POSIX paths *)

(** A stand-in for SHA-1: the state is what the hash was fed, and every
    digest is that of the empty file. *)
Definition constant_digest (_ : bytes) : str :=
  py "da39a3ee5e6b4b0d3255bfef95601890afd80709".

Definition empty_response (_ : str) : bytes := [].

Example extract_zip_example :
  extract OsPath.dirname OsPath.splitext (py "../data/fra-eng.zip") None
  = (Ok tt, [ZipOpen (py "../data/fra-eng.zip"); ExtractAll (py "../data")]).
Proof. reflexivity. Qed.

Example download_cached_example :
  trace (download bytes [] (@app Byte.byte) constant_digest empty_response
           ∅ OsPath.join (py "http://d2l-data/fra-eng.zip") (py "../data")
           (Some (py "da39a3ee5e6b4b0d3255bfef95601890afd80709"))
           {[ py "../data/fra-eng.zip" := [] ]})
  = [MakeDirs (py "../data")].
Proof. vm_compute. reflexivity. Qed.

Lemma unsupported_input_asserts_witness :
  is_assertion_failure
    (fst (extract OsPath.dirname OsPath.splitext (py "notes.txt") None)) /\
  is_assertion_failure (Text.tokenize [py "the time machine"] (py "line")).
Proof.
  pose proof (unsupported_input_asserts OsPath.dirname OsPath.splitext
                (py "notes.txt") None [py "the time machine"] (py "line"))
    as (Hext & _ & _ & Htok & _).
  split.
  - apply Hext. now apply (bool_decide_eq_false_1 (_ ∈ _)).
  - apply Htok. now apply (bool_decide_eq_false_1 (_ ∈ _)).
Defined.

Lemma download_skips_on_match_witness :
  In (HttpGet (py "http://d2l-data/fra-eng.zip"))
     (trace (download bytes [] (@app Byte.byte) constant_digest
               empty_response ∅ OsPath.join
               (py "http://d2l-data/fra-eng.zip") (py "../data") None ∅)).
Proof.
  pose proof (download_skips_on_match bytes [] (@app Byte.byte)
                constant_digest empty_response ∅ OsPath.join
                (fun h a b => eq_sym (app_assoc h a b)) (@app_nil_r _)
                (fun _ => eq_refl)
                (py "http://d2l-data/fra-eng.zip") (py "../data") None ∅
                eq_refl) as (_ & _ & Hfetch).
  apply Hfetch. intros (content & Hfile & _).
  rewrite lookup_empty in Hfile. discriminate Hfile.
Defined.

Lemma download_again_is_cached_witness :
  ~ fetched
      (download bytes [] (@app Byte.byte) constant_digest empty_response
         ∅ OsPath.join (py "http://d2l-data/fra-eng.zip") (py "../data")
         (Some (sha1 bytes [] (@app Byte.byte) constant_digest
                  (empty_response (py "http://d2l-data/fra-eng.zip"))))
         (files
            (download bytes [] (@app Byte.byte) constant_digest
               empty_response ∅ OsPath.join
               (py "http://d2l-data/fra-eng.zip") (py "../data") None ∅))).
Proof.
  apply (download_again_is_cached bytes [] (@app Byte.byte)
           constant_digest empty_response ∅ OsPath.join
           (fun h a b => eq_sym (app_assoc h a b)) (@app_nil_r _)
           (fun _ => eq_refl)
           (py "http://d2l-data/fra-eng.zip") (py "../data") None ∅).
  - reflexivity.
  - intros (content & Hfile & _).
    rewrite lookup_empty in Hfile. discriminate Hfile.
Defined.

Lemma download_by_name_witness :
  download bytes [] (@app Byte.byte) constant_digest empty_response ∅
    OsPath.join (py "fra-eng") (py "../data") None ∅
  = mk (Raise (KeyError (py "fra-eng"))) ∅ [].
Proof.
  apply (download_by_name bytes [] (@app Byte.byte) constant_digest
           empty_response ∅ OsPath.join (py "fra-eng") (py "../data")
           None ∅); reflexivity.
Defined.

Lemma download_extract_unsupported_witness :
  value
    (download_extract bytes [] (@app Byte.byte) constant_digest
       empty_response ∅ OsPath.join OsPath.dirname OsPath.splitext
       (py "http://d2l-data/notes.txt") None ∅)
  = Raise (AssertionError (py "Only zip/tar files can be extracted.")).
Proof.
  rewrite (download_extract_unsupported bytes [] (@app Byte.byte)
             constant_digest empty_response ∅ OsPath.join OsPath.dirname
             OsPath.splitext (py "http://d2l-data/notes.txt") None ∅
             (py "../data/notes.txt")).
  - reflexivity.
  - reflexivity.
  - now apply (bool_decide_eq_false_1 (_ ∈ _)).
Defined.

End Files.

(** ** Masking of padded sequences: sequence_mask *)

Module Mask.

Import Exn.

(** A tensor of rank 2 or 3 with entries in [A], as nested lists. *)
Inductive tensor (A : Type) :=
| X2 (rows : list (list A))
| X3 (rows : list (list (list A))).
Arguments X2 {A} rows.
Arguments X3 {A} rows.

(** Two tensors are combined along their first axis when the sizes agree
    or one of them is 1, which is then repeated (broadcasting). *)
Definition broadcast {B C D} (f : B -> C -> D) (bs : list B) (cs : list C)
    : result (list D) :=
  if (length bs =? length cs)%nat then Ok (zip_with f bs cs)
  else match bs, cs with
       | [b], _ => Ok (map (f b) cs)
       | _, [c] => Ok (map (fun b => f b c) bs)
       | _, _ => Raise InvalidArgumentError
       end.

Section SequenceMask.

Context {A : Type}.

(** [tf.float32], the conversion of an integer to it, and [<] on it. *)
Variable float32 : Type.
Variable cast_float32 : Z -> float32.
Variable less : float32 -> float32 -> bool.

(** [tf.range(start=0, limit=maxlen, dtype=tf.float32)] *)
Definition tf_range (maxlen : nat) : list float32 :=
  map (fun j => cast_float32 (Z.of_nat j)) (seq 0 maxlen).

(** [X.shape[1]] *)
Definition shape1 {B} (rows : list (list B)) : nat := length (hd [] rows).

(** [tf.range(...)[None, :] < tf.cast(valid_len[:, None], tf.float32)]:
    one row per valid length, one column per position. *)
Definition make_mask (maxlen : nat) (valid_len : list Z) : list (list bool) :=
  map (fun v => map (fun j => less j (cast_float32 v)) (tf_range maxlen))
      valid_len.

(** [sequence_mask(X, valid_len, value=0)]:
    [tf.where(tf.expand_dims(mask, axis=-1), X, value)] for rank 3,
    [tf.where(mask, X, value)] otherwise. *)
Definition sequence_mask (X : tensor A) (valid_len : list Z) (value : A)
    : result (tensor A) :=
  match X with
  | X3 rows =>
      let mask := make_mask (shape1 rows) valid_len in
      match broadcast
              (zip_with (fun (m : bool) xs =>
                           map (fun x => if m then x else value) xs))
              mask rows
      with
      | Ok out => Ok (X3 out)
      | Raise e => Raise e
      end
  | X2 rows =>
      let mask := make_mask (shape1 rows) valid_len in
      match broadcast
              (zip_with (fun (m : bool) x => if m then x else value))
              mask rows
      with
      | Ok out => Ok (X2 out)
      | Raise e => Raise e
      end
  end.

(** Entry [(i, j)] of a rank-2 tensor, and the vector at [(i, j)] of a
    rank-3 tensor. *)
Definition entry {B} (rows : list (list B)) (i j : nat) : option B :=
  match nth_error rows i with
  | Some row => nth_error row j
  | None => None
  end.

(** All rows have [maxlen] columns. *)
Definition row_length {B} (maxlen : nat) (rows : list (list B)) : Prop :=
  Forall (fun row => length row = maxlen) rows.

(** Integers below 2^24 are float32 values, and the conversion to
    float32 is monotone: comparing a position below 2^24 with a converted
    length is comparing the integers. *)
Hypothesis less_exact :
  forall j v, 0 <= j < 2 ^ 24 ->
  less (cast_float32 j) (cast_float32 v) = (j <? v).

(** *** Broadcasting *)

Lemma broadcast_same {B C D} (f : B -> C -> D) bs cs :
  length bs = length cs -> broadcast f bs cs = Ok (zip_with f bs cs).
Proof.
  intros H. unfold broadcast. now rewrite (proj2 (Nat.eqb_eq _ _) H).
Qed.

(** *** The mask *)

Lemma make_mask_shape {B} maxlen valid_len (rows : list (list B)) :
  row_length maxlen rows -> length valid_len = length rows ->
  make_mask (shape1 rows) valid_len = make_mask maxlen valid_len.
Proof.
  intros Hrows Hlen. destruct rows as [|row rows].
  - destruct valid_len; [reflexivity | discriminate].
  - inversion Hrows; subst. reflexivity.
Qed.

Lemma length_mask_row maxlen v :
  length (map (fun j => less j (cast_float32 v)) (tf_range maxlen)) = maxlen.
Proof. unfold tf_range. now rewrite !length_map, length_seq. Qed.

Lemma nth_mask_row maxlen v j :
  Z.of_nat maxlen <= 2 ^ 24 -> (j < maxlen)%nat ->
  nth_error (map (fun j => less j (cast_float32 v)) (tf_range maxlen)) j
  = Some (Z.of_nat j <? v).
Proof.
  intros Hmax Hj. unfold tf_range. rewrite map_map.
  rewrite nth_error_map, Py.nth_error_seq_lt by assumption. simpl.
  rewrite less_exact by lia. reflexivity.
Qed.

(** The rows of [X] combined with the rows of the mask by an entrywise
    operation [g]. *)
Lemma masked_rows {B} (g : bool -> B -> B) maxlen :
  Z.of_nat maxlen <= 2 ^ 24 ->
  forall rows valid_len,
  row_length maxlen rows -> length valid_len = length rows ->
  length (zip_with (zip_with g) (make_mask maxlen valid_len) rows)
  = length rows /\
  row_length maxlen (zip_with (zip_with g) (make_mask maxlen valid_len) rows)
  /\
  forall i j v x,
    nth_error valid_len i = Some v -> entry rows i j = Some x ->
    entry (zip_with (zip_with g) (make_mask maxlen valid_len) rows) i j
    = Some (g (Z.of_nat j <? v) x).
Proof.
  intros Hmax. unfold row_length.
  induction rows as [|row rows IH]; intros [|v0 valid_len] Hrows Hlen;
    try discriminate; simpl.
  - split; [reflexivity|]. split; [constructor|].
    intros [|i] j v x Hv; discriminate.
  - inversion Hrows as [|? ? Hrow Hrows']; subst.
    destruct (IH valid_len Hrows' ltac:(simpl in Hlen; lia))
      as (IHlen & IHrows & IHent).
    split; [now rewrite IHlen|]. split.
    + constructor; [|exact IHrows].
      rewrite length_zip_with, length_mask_row. lia.
    + intros [|i] j v x Hv Hx; unfold entry in *; simpl in *.
      * injection Hv as ->.
        apply Py.nth_error_zip_with; [|exact Hx].
        apply nth_mask_row; [assumption|].
        now apply Py.nth_error_lt in Hx.
      * now apply IHent.
Qed.

(** C10: for a rank-2 tensor with rows of length [maxlen] and one valid
    length per row, the result has the same shape, and its entry [(i, j)]
    is that of [X] when [j < valid_len[i]] and [value] otherwise; for a
    rank-3 tensor the same holds along the second axis, the vector at
    [(i, j)] being kept or filled with [value] as a whole.  Positions are
    compared as float32 values, which is exact for up to 2^24 columns. *)
Theorem sequence_mask_entries (maxlen : nat) (valid_len : list Z) (value : A) :
  Z.of_nat maxlen <= 2 ^ 24 ->
  (forall rows : list (list A),
     row_length maxlen rows -> length valid_len = length rows ->
     exists out,
       sequence_mask (X2 rows) valid_len value = Ok (X2 out) /\
       length out = length rows /\ row_length maxlen out /\
       forall i j v x,
         nth_error valid_len i = Some v -> entry rows i j = Some x ->
         entry out i j = Some (if Z.of_nat j <? v then x else value)) /\
  (forall rows : list (list (list A)),
     row_length maxlen rows -> length valid_len = length rows ->
     exists out,
       sequence_mask (X3 rows) valid_len value = Ok (X3 out) /\
       length out = length rows /\ row_length maxlen out /\
       forall i j v xs,
         nth_error valid_len i = Some v -> entry rows i j = Some xs ->
         entry out i j
         = Some (if Z.of_nat j <? v then xs else map (fun _ => value) xs)).
Proof.
  intros Hmax. split; intros rows Hrows Hlen; simpl.
  - rewrite (make_mask_shape maxlen) by assumption.
    rewrite broadcast_same
      by (unfold make_mask; now rewrite length_map).
    eexists. split; [reflexivity|].
    destruct (masked_rows (fun (m : bool) x => if m then x else value)
                maxlen Hmax rows valid_len Hrows Hlen) as (H1 & H2 & H3).
    split; [exact H1|]. split; [exact H2|].
    intros i j v x Hv Hx. now rewrite (H3 i j v x Hv Hx).
  - rewrite (make_mask_shape maxlen) by assumption.
    rewrite broadcast_same
      by (unfold make_mask; now rewrite length_map).
    eexists. split; [reflexivity|].
    destruct (masked_rows
                (fun (m : bool) xs => map (fun x => if m then x else value) xs)
                maxlen Hmax rows valid_len Hrows Hlen) as (H1 & H2 & H3).
    split; [exact H1|]. split; [exact H2|].
    intros i j v xs Hv Hxs. rewrite (H3 i j v xs Hv Hxs).
    destruct (Z.of_nat j <? v); [now rewrite map_id | reflexivity].
Qed.

(** *** Masking twice *)

Lemma zip_with_twice {B C} (g : B -> C -> C) :
  (forall m x, g m (g m x) = g m x) ->
  forall ms xs, zip_with g ms (zip_with g ms xs) = zip_with g ms xs.
Proof.
  intros Hg. induction ms as [|m ms IH]; intros [|x xs]; simpl; auto.
  now rewrite Hg, IH.
Qed.

Lemma masked_row_length {B} (g : bool -> B -> B) maxlen :
  forall rows valid_len,
  row_length maxlen rows ->
  row_length maxlen
    (zip_with (zip_with g) (make_mask maxlen valid_len) rows).
Proof.
  unfold row_length.
  induction rows as [|row rows IH]; intros [|v valid_len] Hrows; simpl;
    try constructor.
  - inversion Hrows; subst.
    rewrite length_zip_with, length_mask_row. lia.
  - inversion Hrows; subst. now apply IH.
Qed.

Lemma sequence_mask_rows {B} (g : bool -> B -> B) maxlen rows valid_len :
  row_length maxlen rows -> length valid_len = length rows ->
  broadcast (zip_with g) (make_mask (shape1 rows) valid_len) rows
  = Ok (zip_with (zip_with g) (make_mask maxlen valid_len) rows).
Proof.
  intros Hrows Hlen. rewrite (make_mask_shape maxlen) by assumption.
  apply broadcast_same. unfold make_mask. now rewrite length_map.
Qed.

(** X8: masking is idempotent: for a tensor of rank 2 or 3 with rows of
    one length and one valid length per row, masking the result again
    with the same valid lengths and value gives the result. *)
Theorem sequence_mask_idempotent (maxlen : nat) (valid_len : list Z)
    (value : A) :
  (forall rows : list (list A),
     row_length maxlen rows -> length valid_len = length rows ->
     exists out,
       sequence_mask (X2 rows) valid_len value = Ok (X2 out) /\
       sequence_mask (X2 out) valid_len value = Ok (X2 out)) /\
  (forall rows : list (list (list A)),
     row_length maxlen rows -> length valid_len = length rows ->
     exists out,
       sequence_mask (X3 rows) valid_len value = Ok (X3 out) /\
       sequence_mask (X3 out) valid_len value = Ok (X3 out)).
Proof.
  split; intros rows Hrows Hlen; cbn [sequence_mask].
  - rewrite (sequence_mask_rows _ maxlen) by assumption.
    eexists. split; [reflexivity|].
    rewrite (sequence_mask_rows _ maxlen).
    + do 2 f_equal. apply zip_with_twice. intros ms xs.
      apply zip_with_twice. now intros [] x.
    + now apply masked_row_length.
    + rewrite length_zip_with. unfold make_mask. rewrite length_map. lia.
  - rewrite (sequence_mask_rows _ maxlen) by assumption.
    eexists. split; [reflexivity|].
    rewrite (sequence_mask_rows _ maxlen).
    + do 2 f_equal. apply zip_with_twice. intros ms xs.
      apply zip_with_twice. intros [] x; rewrite map_map; reflexivity.
    + now apply masked_row_length.
    + rewrite length_zip_with. unfold make_mask. rewrite length_map. lia.
Qed.

End SequenceMask.

Example sequence_mask_example :
  sequence_mask Z (fun z => z) Z.ltb (X2 [[1; 2; 3]; [4; 5; 6]]) [1; 2] 0
  = Ok (X2 [[1; 0; 0]; [4; 5; 0]]).
Proof. reflexivity. Qed.

Lemma sequence_mask_entries_witness :
  exists out,
    sequence_mask Z (fun z => z) Z.ltb (X2 [[1; 2; 3]; [4; 5; 6]]) [1; 2] (-1)
    = Ok (X2 out) /\
    length out = 2%nat /\ row_length 3 out /\
    forall i j v x,
      nth_error [1; 2] i = Some v ->
      entry [[1; 2; 3]; [4; 5; 6]] i j = Some x ->
      entry out i j = Some (if Z.of_nat j <? v then x else -1).
Proof.
  apply (proj1 (sequence_mask_entries Z (fun z => z) Z.ltb
                  (fun j v _ => eq_refl) 3 [1; 2] (-1)
                  ltac:(vm_compute; discriminate))).
  - repeat constructor.
  - reflexivity.
Defined.

Lemma sequence_mask_idempotent_witness :
  exists out,
    sequence_mask Z (fun z => z) Z.ltb (X2 [[1; 2; 3]; [4; 5; 6]]) [1; 2] 0
    = Ok (X2 out) /\
    sequence_mask Z (fun z => z) Z.ltb (X2 out) [1; 2] 0 = Ok (X2 out).
Proof.
  apply (proj1 (sequence_mask_idempotent Z (fun z => z) Z.ltb 3 [1; 2] 0)).
  - repeat constructor.
  - reflexivity.
Defined.

End Mask.

(** ** Greedy decoding: predict_seq2seq *)

Module Seq2Seq.

Import Str Text.

Section Predict.

(** The trained model [net]: what the encoder returns, the state of the
    decoder, its output per step and its attention weights. *)
Variables (EncOutputs State Logits Weights : Type).
Variable encoder : list Z -> Z -> EncOutputs.
Variable init_state : EncOutputs -> Z -> State.

(** [net.decoder(dec_X, dec_state, training=False)] for a batch of one
    token; the third component is [net.decoder.attention_weights] as the
    call leaves it. *)
Variable decoder : Z -> State -> Logits * State * Weights.

(** [tf.argmax(Y, axis=2)], the token with the highest score. *)
Variable argmax : Logits -> Z.

(** The vocabularies: [vocab[token]] and [tgt_vocab.to_tokens]. *)
Variable src_vocab : str -> Z.
Variable tgt_vocab : str -> Z.
Variable to_tokens : list Z -> list str.

(** [s.lower()] *)
Variable lower : str -> str.

(** What the loop has built when it ends: [output_seq],
    [attention_weight_seq], and (not in the source) every token the
    decoder predicted, one per call of the decoder. *)
Record decoded := mk {
  output_seq : list Z;
  attention_weight_seq : list Weights;
  predicted : list Z
}.

(** [for _ in range(num_steps): ...], with [n] iterations left. *)
Fixpoint decode (save_attention_weights : bool) (n : nat) (dec_X : Z)
    (dec_state : State) : decoded :=
  match n with
  | O => mk [] [] []
  | S n' =>
      let '(Y, dec_state', weights) := decoder dec_X dec_state in
      let pred := argmax Y in
      let saved := if save_attention_weights then [weights] else [] in
      if pred =? tgt_vocab (py "<eos>") then mk [] saved [pred]
      else
        let rest := decode save_attention_weights n' pred dec_state' in
        mk (pred :: output_seq rest)
           (saved ++ attention_weight_seq rest)
           (pred :: predicted rest)
  end.

(** [predict_seq2seq(net, src_sentence, src_vocab, tgt_vocab, num_steps,
    save_attention_weights=False)]; [decoding] is the run of its loop. *)
Definition decoding (src_sentence : str) (num_steps : Z)
    (save_attention_weights : bool) : decoded :=
  let src_tokens :=
    map src_vocab (split_sep 32%N (lower src_sentence))
    ++ [src_vocab (py "<eos>")] in
  let enc_valid_len := Py.len src_tokens in
  let src_tokens :=
    truncate_pad src_tokens num_steps (src_vocab (py "<pad>")) in
  let enc_outputs := encoder src_tokens enc_valid_len in
  let dec_state := init_state enc_outputs enc_valid_len in
  let dec_X := tgt_vocab (py "<bos>") in
  decode save_attention_weights (Z.to_nat num_steps) dec_X dec_state.

Definition predict_seq2seq (src_sentence : str) (num_steps : Z)
    (save_attention_weights : bool) : str * list Weights :=
  let d := decoding src_sentence num_steps save_attention_weights in
  (join_sep (py " ") (to_tokens (output_seq d)), attention_weight_seq d).

(** The number of decoder steps of a run. *)
Definition decoder_steps (d : decoded) : nat := length (predicted d).

Definition eos : Z := tgt_vocab (py "<eos>").

(** *** The loop *)

Lemma decode_step save n x st :
  decode save (S n) x st
  = let '(Y, st', weights) := decoder x st in
    let saved := if save then [weights] else [] in
    if argmax Y =? eos then mk [] saved [argmax Y]
    else
      let rest := decode save n (argmax Y) st' in
      mk (argmax Y :: output_seq rest) (saved ++ attention_weight_seq rest)
         (argmax Y :: predicted rest).
Proof. reflexivity. Qed.

Lemma decode_steps_le save n : forall x st,
  (decoder_steps (decode save n x st) <= n)%nat.
Proof.
  unfold decoder_steps.
  induction n as [|n IH]; intros x st; [simpl; lia|].
  rewrite decode_step. destruct (decoder x st) as [[Y st'] w].
  destruct (argmax Y =? eos); simpl; [lia|].
  specialize (IH (argmax Y) st'). lia.
Qed.

Lemma decode_early save n : forall x st,
  (decoder_steps (decode save n x st) < n)%nat <->
  In eos (firstn (n - 1) (predicted (decode save n x st))).
Proof.
  unfold decoder_steps.
  induction n as [|n IH]; intros x st; [simpl; split; [lia | tauto]|].
  rewrite decode_step. destruct (decoder x st) as [[Y st'] w].
  replace (S n - 1)%nat with n by lia.
  destruct (Z.eqb_spec (argmax Y) eos) as [Heq | Hne]; simpl.
  - destruct n as [|n]; simpl; [split; [lia | tauto]|].
    split; [auto | lia].
  - specialize (IH (argmax Y) st').
    destruct n as [|n]; simpl in *; [split; [lia | tauto]|].
    replace (n - 0)%nat with n in IH by lia.
    split.
    + intros H. right. apply IH. lia.
    + intros [H | H]; [congruence|]. apply IH in H. lia.
Qed.

Lemma decode_stops_at_eos save n : forall x st,
  In eos (predicted (decode save n x st)) ->
  exists firsts,
    predicted (decode save n x st) = firsts ++ [eos] /\ ~ In eos firsts.
Proof.
  induction n as [|n IH]; intros x st; [simpl; tauto|].
  rewrite decode_step. destruct (decoder x st) as [[Y st'] w].
  destruct (Z.eqb_spec (argmax Y) eos) as [Heq | Hne]; simpl.
  - intros _. exists []. rewrite Heq. split; [reflexivity | tauto].
  - intros [H | H]; [congruence|].
    destruct (IH _ _ H) as (firsts & -> & Hnot).
    exists (argmax Y :: firsts). split; [reflexivity|].
    intros [H' | H']; [congruence | contradiction].
Qed.

Lemma decode_runs_out save n : forall x st,
  ~ In eos (predicted (decode save n x st)) ->
  decoder_steps (decode save n x st) = n.
Proof.
  unfold decoder_steps.
  induction n as [|n IH]; intros x st; [reflexivity|].
  rewrite decode_step. destruct (decoder x st) as [[Y st'] w].
  destruct (Z.eqb_spec (argmax Y) eos) as [Heq | Hne]; simpl.
  - intros H. exfalso. apply H. left. exact Heq.
  - intros H. rewrite IH; [reflexivity|]. intros H'. apply H. now right.
Qed.

Lemma decode_weights n : forall x st,
  length (attention_weight_seq (decode true n x st))
  = decoder_steps (decode true n x st).
Proof.
  unfold decoder_steps.
  induction n as [|n IH]; intros x st; [reflexivity|].
  rewrite decode_step. destruct (decoder x st) as [[Y st'] w].
  destruct (argmax Y =? eos); simpl; [reflexivity|]. now rewrite IH.
Qed.

Lemma decode_output save n : forall x st,
  output_seq (decode save n x st)
  = List.filter (fun t => negb (t =? eos)) (predicted (decode save n x st)).
Proof.
  induction n as [|n IH]; intros x st; [reflexivity|].
  rewrite decode_step. destruct (decoder x st) as [[Y st'] w].
  destruct (argmax Y =? eos) eqn:Heos; simpl; rewrite Heos; simpl;
    [reflexivity|]. now rewrite <- IH.
Qed.

(** C2 (amended): [predict_seq2seq] performs at most [num_steps] decoder
    steps (as many as the attention weights it returns when asked to save
    them) and stops right after the first step that produces the
    end-of-sequence token; so it performs strictly fewer than [num_steps]
    steps if and only if that token is produced at one of the first
    [num_steps - 1] steps, and all [num_steps] steps when the token is
    never produced. *)
Theorem decoder_steps_bound (src_sentence : str) (num_steps : Z)
    (save_attention_weights : bool) :
  length (snd (predict_seq2seq src_sentence num_steps true))
  = decoder_steps (decoding src_sentence num_steps true) /\
  (decoder_steps (decoding src_sentence num_steps save_attention_weights)
   <= Z.to_nat num_steps)%nat /\
  ((decoder_steps (decoding src_sentence num_steps save_attention_weights)
    < Z.to_nat num_steps)%nat <->
   In eos (firstn (Z.to_nat num_steps - 1)
             (predicted
                (decoding src_sentence num_steps save_attention_weights))))
  /\
  (In eos
      (predicted (decoding src_sentence num_steps save_attention_weights)) ->
   exists firsts,
     predicted (decoding src_sentence num_steps save_attention_weights)
     = firsts ++ [eos] /\ ~ In eos firsts) /\
  (~ In eos
       (predicted (decoding src_sentence num_steps save_attention_weights)) ->
   decoder_steps (decoding src_sentence num_steps save_attention_weights)
   = Z.to_nat num_steps).
Proof.
  unfold predict_seq2seq, decoding. split; [apply decode_weights|].
  split; [apply decode_steps_le|].
  split; [apply decode_early|].
  split; [apply decode_stops_at_eos | apply decode_runs_out].
Qed.

(** X6: the tokens that [predict_seq2seq] turns into text are the
    predictions of the decoder up to, and without, the first
    end-of-sequence token: that token is never part of the output, and
    the output has at most [num_steps] tokens. *)
Theorem output_without_eos (src_sentence : str) (num_steps : Z)
    (save_attention_weights : bool) :
  ~ In eos
      (output_seq (decoding src_sentence num_steps save_attention_weights))
  /\
  (length
     (output_seq (decoding src_sentence num_steps save_attention_weights))
   <= Z.to_nat num_steps)%nat /\
  (predicted (decoding src_sentence num_steps save_attention_weights)
   = output_seq (decoding src_sentence num_steps save_attention_weights)
   \/
   predicted (decoding src_sentence num_steps save_attention_weights)
   = output_seq (decoding src_sentence num_steps save_attention_weights)
     ++ [eos]).
Proof.
  unfold decoding.
  set (n := Z.to_nat num_steps). set (x := tgt_vocab (py "<bos>")).
  set (st := init_state _ _). clearbody n x st. clear.
  revert x st. induction n as [|n IH]; intros x st.
  - simpl. split; [tauto|]. split; [lia | now left].
  - rewrite decode_step. destruct (decoder x st) as [[Y st'] w].
    destruct (Z.eqb_spec (argmax Y) eos) as [Heq | Hne]; simpl.
    + split; [tauto|]. split; [lia|]. right. now rewrite Heq.
    + destruct (IH (argmax Y) st') as (Hnot & Hlen & Hpred).
      split; [intros [H | H]; [congruence | contradiction]|].
      split; [lia|].
      destruct Hpred as [-> | ->]; [now left | now right].
Qed.

End Predict.

(** *** A model that translates everything to two tokens *)

(** The decoder state counts the steps made; the scores are that count;
    the best token is 10 at the first step, 11 at the second, and the
    end of the sequence (token 2) from the third step on. *)
Definition toy_decoder (_ : Z) (steps : nat) : nat * nat * unit :=
  (steps, S steps, tt).

Definition toy_argmax (steps : nat) : Z :=
  if (steps <? 2)%nat then 10 + Z.of_nat steps else 2.

Definition toy_tgt_vocab (token : str) : Z :=
  if bool_decide (token = py "<eos>") then 2
  else if bool_decide (token = py "<bos>") then 1
  else 0.

Definition toy_decoding (num_steps : Z) : decoded unit :=
  decoding unit nat nat unit (fun _ _ => tt) (fun _ _ => O) toy_decoder
    toy_argmax Py.len toy_tgt_vocab (fun s => s) (py "go .") num_steps false.

Example toy_decoding_5 :
  predicted unit (toy_decoding 5) = [10; 11; 2] /\
  output_seq unit (toy_decoding 5) = [10; 11].
Proof. split; reflexivity. Qed.

(** C2, as stated, fails: with [num_steps = 3] the end-of-sequence token
    is produced at the third step, and the decoder has run 3 steps, not
    fewer. *)
Lemma eos_at_last_step_counterexample :
  ~ ((decoder_steps unit (toy_decoding 3) < Z.to_nat 3)%nat <->
     In (eos toy_tgt_vocab) (predicted unit (toy_decoding 3))).
Proof.
  intros [_ H].
  assert (Hin : In (eos toy_tgt_vocab) (predicted unit (toy_decoding 3)))
    by (vm_compute; tauto).
  apply H in Hin. vm_compute in Hin. lia.
Qed.

Lemma decoder_steps_bound_witness :
  (decoder_steps unit (toy_decoding 5) < Z.to_nat 5)%nat.
Proof.
  apply (proj1 (proj2 (proj2 (decoder_steps_bound unit nat nat unit
                         (fun _ _ => tt) (fun _ _ => O) toy_decoder
                         toy_argmax Py.len toy_tgt_vocab (fun _ => [])
                         (fun s => s) (py "go .") 5 false)))).
  vm_compute. tauto.
Defined.

End Seq2Seq.

(** ** float32 numbers *)

Module Float32.

(** IEEE 754 binary32: 24 bits of precision, exponents below 128, and
    round to nearest, ties to even. *)
Definition prec : Z := 24.
Definition emax : Z := 128.

Definition zero : spec_float := S754_zero false.
Definition infinity : spec_float := S754_infinity false.

(** [tf.constant(z, dtype=tf.float32)] for an integer [z]. *)
Definition of_Z (z : Z) : spec_float := binary_normalize prec emax z 0 false.

Definition one : spec_float := of_Z 1.

Definition add : spec_float -> spec_float -> spec_float := SFadd prec emax.
Definition mul : spec_float -> spec_float -> spec_float := SFmul prec emax.
Definition div : spec_float -> spec_float -> spec_float := SFdiv prec emax.
Definition sqrt : spec_float -> spec_float := SFsqrt prec emax.

(** [x > y] *)
Definition greater (x y : spec_float) : bool := SFltb y x.

(** The real number that a finite float stands for. *)
Definition val (x : spec_float) : R :=
  match x with
  | S754_finite s m e => (IZR (cond_Zopp s (Zpos m)) * powerRZ 2 e)%R
  | _ => 0%R
  end.

(** A sum of the entries from left to right, one of the orders in which
    [tf.reduce_sum] may add them. *)
Definition reduce_sum (xs : list spec_float) : spec_float :=
  fold_left add xs zero.

End Float32.

(** ** Gradient clipping: grad_clipping *)

Module Clip.

Import Exn.

Section GradClipping.

(** The float32 numbers of TensorFlow, and the NumPy scalars that
    Python's [sum] adds up ([np.float64] up to NumPy 1, [np.float32] from
    NumPy 2).  A dense tensor is the list of its entries: the function
    squares, sums and scales entry by entry and never looks at the
    shape. *)
Variable F : Type.
Variable N : Type.

Local Abbreviation tensor := (list F).

(** [x ** 2], [tf.reduce_sum], [x * y], [x / y] and [tf.greater] on
    float32. *)
Variable pow2 : F -> F.
Variable reduce_sum : tensor -> F.
Variable mul : F -> F -> F.
Variable div : F -> F -> F.
Variable greater : F -> F -> bool.

(** [tf.constant(theta, dtype=tf.float32)] for the number that is passed
    as [theta]. *)
Variable Number : Type.
Variable tf_constant : Number -> F.

(** [0 + x] and [acc + x] for the scalar [x] that [.numpy()] returns,
    [tf.math.sqrt] on the total, and [tf.cast(norm, tf.float32)]. *)
Variable radd0 : F -> N.
Variable np_add : N -> F -> N.
Variable tf_sqrt : N -> N.
Variable cast_float32 : N -> F.

(** [tf.IndexedSlices], and [tf.convert_to_tensor] on it: the dense
    tensor with the same values. *)
Variable IndexedSlices : Type.
Variable convert_to_tensor : IndexedSlices -> tensor.

(** A gradient is a dense tensor or an [IndexedSlices]. *)
Inductive grad :=
| Tensor (t : tensor)
| Slices (s : IndexedSlices).

(** The first loop: [isinstance(grad, tf.IndexedSlices)] decides between
    [tf.convert_to_tensor(grad)] and [grad]. *)
Definition dense (g : grad) : tensor :=
  match g with
  | Slices s => convert_to_tensor s
  | Tensor t => t
  end.

(** [tf.reduce_sum(grad ** 2)] *)
Definition sum_squares (t : tensor) : F := reduce_sum (map pow2 t).

(** What Python's [sum] holds: the [int] 0 it starts from, or a NumPy
    scalar once a number was added. *)
Inductive total :=
| Int0
| Scalar (n : N).

Definition py_add (acc : total) (x : F) : total :=
  match acc with
  | Int0 => Scalar (radd0 x)
  | Scalar n => Scalar (np_add n x)
  end.

(** [sum(... for grad in new_grad)]: Python adds from 0, left to right. *)
Definition py_sum (xs : list F) : total := fold_left py_add xs Int0.

(** [tf.cast(tf.math.sqrt(sum(...)), tf.float32)]; the square root of the
    [int] 0, the sum of no tensors, is refused by TensorFlow. *)
Definition computed_norm (new_grad : list tensor) : result F :=
  match py_sum (map sum_squares new_grad) with
  | Int0 => Raise InvalidArgumentError
  | Scalar n => Ok (cast_float32 (tf_sqrt n))
  end.

(** [grad * theta / norm], entry by entry. *)
Definition scale (theta norm : F) (t : tensor) : tensor :=
  map (fun x => div (mul x theta) norm) t.

(** The second loop, from index [i] on, for [n] more tensors:
    [new_grad[i] = grad * theta / norm] writes into the list that is
    enumerated. *)
Fixpoint rescale_from (theta norm : F) (i n : nat) (new_grad : list tensor)
    : list tensor :=
  match n with
  | O => new_grad
  | S n =>
      match new_grad !! i with
      | Some g =>
          rescale_from theta norm (S i) n
            (<[i := scale theta norm g]> new_grad)
      | None => new_grad
      end
  end.

(** [grad_clipping(grads, theta)]; the input list is left as it is, the
    result is the new list [new_grad]. *)
Definition grad_clipping (grads : list grad) (theta : Number)
    : result (list tensor) :=
  let theta := tf_constant theta in
  let new_grad := map dense grads in
  match computed_norm new_grad with
  | Raise e => Raise e
  | Ok norm =>
      if greater norm theta
      then Ok (rescale_from theta norm 0 (length new_grad) new_grad)
      else Ok new_grad
  end.

(** *** The accuracy of the arithmetic

    [val] is the real number that a finite float stands for.  A float is
    [normal] when it is finite, not zero and not subnormal.  Every
    operation returns the exact result rounded: when the result [f] is
    normal it is off the exact result by at most [u * |f|], for the unit
    roundoff [u] (2^-24 for float32 operations that round to nearest).
    Sums and square roots do not underflow; zero times or divided by a
    finite number is zero; an infinity or a NaN in an operand is one in
    the result. *)
Variable val : F -> R.
Variable valN : N -> R.
Variable finite : F -> Prop.
Variable finiteN : N -> Prop.
Variable normal : F -> Prop.
Variable u : R.

Local Open Scope R_scope.

(** The exact number [e] lies within [k] roundings of the float value
    [f]. *)
Definition within (k : nat) (e f : R) : Prop :=
  f * (1 - u) ^ k <= e <= f * (1 + u) ^ k.

(** The sum of the numbers [h x], for [x] in the list. *)
Definition total_of {A} (h : A -> R) (xs : list A) : R :=
  fold_right Rplus 0 (map h xs).

(** The global L2 norm of the tensors: the square root of the sum of the
    squares of all their entries. *)
Definition l2_norm (ts : list tensor) : R :=
  sqrt (total_of (fun x => val x ^ 2) (concat ts)).

(** No square overflows or underflows. *)
Definition squares_in_range (ts : list tensor) : Prop :=
  Forall (Forall (fun x => finite x /\ (val x = 0 \/ normal (pow2 x)))) ts.

(** No product with [theta] and no quotient by [norm] overflows or
    underflows. *)
Definition scaling_in_range (theta norm : F) (ts : list tensor) : Prop :=
  Forall (Forall (fun x =>
            val x = 0 \/
            (normal (mul x theta) /\ normal (div (mul x theta) norm)))) ts.

(** The number of roundings between the entries and the total of their
    squares: one for the square, one per entry of the longest tensor and
    one per tensor. *)
Definition roundings (ts : list tensor) : nat :=
  (length ts + list_max (map length ts) + 1)%nat.

Hypothesis u_range : 0 <= u < 1.
Hypothesis normal_finite : forall x, normal x -> finite x.

Hypothesis pow2_rounds : forall x,
  finite x -> normal (pow2 x) ->
  Rabs (val (pow2 x) - val x ^ 2) <= u * Rabs (val (pow2 x)).
Hypothesis pow2_zero : forall x,
  finite x -> val x = 0 -> finite (pow2 x) /\ val (pow2 x) = 0.

Hypothesis reduce_sum_rounds : forall xs,
  Forall (fun x => finite x /\ 0 <= val x) xs -> finite (reduce_sum xs) ->
  within (length xs) (total_of val xs) (val (reduce_sum xs)).

Hypothesis radd0_finite : forall x, finiteN (radd0 x) -> finite x.
Hypothesis radd0_exact : forall x, finite x -> valN (radd0 x) = val x.

Hypothesis np_add_finite : forall n x,
  finiteN (np_add n x) -> finiteN n /\ finite x.
Hypothesis np_add_rounds : forall n x,
  finiteN (np_add n x) ->
  Rabs (valN (np_add n x) - (valN n + val x))
  <= u * Rabs (valN (np_add n x)).

Hypothesis tf_sqrt_finite : forall n, finiteN (tf_sqrt n) -> finiteN n.
Hypothesis tf_sqrt_rounds : forall n,
  finiteN (tf_sqrt n) -> 0 <= valN n ->
  Rabs (valN (tf_sqrt n) - sqrt (valN n)) <= u * Rabs (valN (tf_sqrt n)).

Hypothesis cast_finite : forall n, finite (cast_float32 n) -> finiteN n.
Hypothesis cast_rounds : forall n,
  normal (cast_float32 n) ->
  Rabs (val (cast_float32 n) - valN n) <= u * Rabs (val (cast_float32 n)).

Hypothesis greater_finite : forall x y,
  finite x -> finite y -> greater x y = true -> val y < val x.

Hypothesis mul_rounds : forall x y,
  finite x -> finite y -> normal (mul x y) ->
  Rabs (val (mul x y) - val x * val y) <= u * Rabs (val (mul x y)).
Hypothesis mul_zero : forall x y,
  finite x -> finite y -> val x = 0 ->
  finite (mul x y) /\ val (mul x y) = 0.

Hypothesis div_rounds : forall x y,
  finite x -> finite y -> val y <> 0 -> normal (div x y) ->
  Rabs (val (div x y) - val x / val y) <= u * Rabs (val (div x y)).
Hypothesis div_zero : forall x y,
  finite x -> finite y -> val y <> 0 -> val x = 0 -> val (div x y) = 0.

(** *** Bounds on exact numbers *)

Lemma low_pos k : 0 < (1 - u) ^ k.
Proof. apply pow_lt. lra. Qed.

Lemma high_pos k : 0 < (1 + u) ^ k.
Proof. apply pow_lt. lra. Qed.

Lemma low_le_1 k : (1 - u) ^ k <= 1.
Proof.
  induction k as [|k IH]; cbn [pow]; [lra|].
  pose proof (low_pos k). nra.
Qed.

Lemma high_ge_1 k : 1 <= (1 + u) ^ k.
Proof. apply pow_R1_Rle. lra. Qed.

Lemma within_refl k f : 0 <= f -> within k f f.
Proof.
  intros Hf. pose proof (low_le_1 k). pose proof (high_ge_1 k).
  unfold within. nra.
Qed.

Lemma within_sign k e f : within k e f -> 0 <= e <-> 0 <= f.
Proof.
  intros [Hlo Hhi]. pose proof (low_pos k) as Hl.
  pose proof (high_pos k) as Hh. split; intros Hs; nra.
Qed.

Lemma within_mono k k' e f :
  (k <= k')%nat -> 0 <= f -> within k e f -> within k' e f.
Proof.
  intros Hk Hf [Hlo Hhi].
  replace k' with (k + (k' - k))%nat by lia. unfold within.
  rewrite !pow_add.
  pose proof (low_pos k). pose proof (low_le_1 (k' - k)).
  pose proof (high_pos k). pose proof (high_ge_1 (k' - k)).
  assert (0 <= f * (1 - u) ^ k) by nra.
  assert (0 <= f * (1 + u) ^ k) by nra.
  rewrite <- !Rmult_assoc. split; nra.
Qed.

Lemma within_plus k e1 f1 e2 f2 :
  within k e1 f1 -> within k e2 f2 -> within k (e1 + e2) (f1 + f2).
Proof. unfold within. intros [] []. split; lra. Qed.

Lemma within_trans k1 k2 e m f :
  within k1 e m -> within k2 m f -> within (k1 + k2) e f.
Proof.
  unfold within. intros [H1 H2] [H3 H4]. rewrite !pow_add.
  pose proof (low_pos k1). pose proof (high_pos k1). split; nra.
Qed.

Lemma within_scale k c e f :
  0 <= c -> within k e f -> within k (c * e) (c * f).
Proof. unfold within. intros Hc []. split; nra. Qed.

Lemma within_mult k1 k2 e1 f1 e2 f2 :
  0 <= f1 -> 0 <= f2 ->
  within k1 e1 f1 -> within k2 e2 f2 ->
  within (k1 + k2) (e1 * e2) (f1 * f2).
Proof.
  intros Hf1 Hf2 H1 H2.
  pose proof (proj2 (within_sign _ _ _ H1) Hf1) as He1.
  apply (within_trans k1 k2 _ (f1 * e2)).
  - destruct H1 as [Hlo Hhi]. unfold within.
    pose proof (proj2 (within_sign _ _ _ H2) Hf2). split; nra.
  - now apply within_scale.
Qed.

Lemma within_sqrt_half k e f :
  0 <= f -> within (k + k) e f -> within k (sqrt e) (sqrt f).
Proof.
  intros Hf H. pose proof (proj2 (within_sign _ _ _ H) Hf) as He.
  destruct H as [Hlo Hhi]. rewrite !pow_add in Hlo, Hhi.
  pose proof (low_pos k). pose proof (high_pos k). unfold within.
  assert (Hl : (1 - u) ^ k = sqrt ((1 - u) ^ k * (1 - u) ^ k))
    by (symmetry; apply sqrt_square; lra).
  assert (Hh : (1 + u) ^ k = sqrt ((1 + u) ^ k * (1 + u) ^ k))
    by (symmetry; apply sqrt_square; lra).
  split.
  - rewrite Hl, <- sqrt_mult by nra. apply sqrt_le_1; nra.
  - rewrite Hh, <- sqrt_mult by nra. apply sqrt_le_1; nra.
Qed.

Lemma within_sqrt k e f :
  0 <= f -> within k e f -> within k (sqrt e) (sqrt f).
Proof.
  intros Hf H. apply within_sqrt_half; [assumption|].
  apply (within_mono k); [lia | assumption | assumption].
Qed.

Lemma within_total {A} k (e f : A -> R) (xs : list A) :
  Forall (fun x => within k (e x) (f x)) xs ->
  within k (total_of e xs) (total_of f xs).
Proof.
  unfold total_of. induction 1 as [|x xs Hx _ IH]; cbn [map fold_right].
  - unfold within. lra.
  - now apply within_plus.
Qed.

(** A float within [u] of itself from a number that is not negative is
    not negative, and the number is within one rounding of it. *)
Lemma rounded_nonneg e f :
  0 <= e -> Rabs (f - e) <= u * Rabs f -> 0 <= f /\ within 1 e f.
Proof.
  intros He H. unfold within. rewrite !pow_1.
  unfold Rabs in H. repeat destruct Rcase_abs in H; split; nra.
Qed.

Lemma rounded_abs e f :
  Rabs (f - e) <= u * Rabs f -> within 1 (Rabs e) (Rabs f).
Proof.
  intros H. unfold within. rewrite !pow_1.
  unfold Rabs in *. repeat destruct Rcase_abs; repeat destruct Rcase_abs in H;
    split; nra.
Qed.

Lemma total_of_nonneg {A} (h : A -> R) xs :
  Forall (fun x => 0 <= h x) xs -> 0 <= total_of h xs.
Proof.
  unfold total_of. induction 1; cbn [map fold_right]; lra.
Qed.

Lemma total_of_app {A} (h : A -> R) xs ys :
  total_of h (xs ++ ys) = total_of h xs + total_of h ys.
Proof.
  unfold total_of. induction xs as [|x xs IH]; cbn [app map fold_right].
  - lra.
  - rewrite IH. lra.
Qed.

Lemma total_of_concat {A} (h : A -> R) (ts : list (list A)) :
  total_of h (concat ts) = total_of (total_of h) ts.
Proof.
  induction ts as [|t ts IH]; [reflexivity|].
  cbn [concat]. rewrite total_of_app, IH. reflexivity.
Qed.

Lemma total_of_map {A B} (h : B -> R) (g : A -> B) xs :
  total_of h (map g xs) = total_of (fun x => h (g x)) xs.
Proof. unfold total_of. now rewrite map_map. Qed.

Lemma total_of_scale {A} c (h : A -> R) xs :
  total_of (fun x => c * h x) xs = c * total_of h xs.
Proof.
  unfold total_of. induction xs as [|x xs IH]; cbn [map fold_right].
  - lra.
  - rewrite IH. lra.
Qed.

(** *** The loops *)

Lemma rescale_from_spec theta norm n : forall i new_grad,
  length new_grad = (i + n)%nat ->
  rescale_from theta norm i n new_grad
  = take i new_grad ++ map (scale theta norm) (drop i new_grad).
Proof.
  induction n as [|n IH]; intros i new_grad Hlen; cbn [rescale_from].
  - rewrite drop_ge, take_ge by lia. now rewrite app_nil_r.
  - destruct (lookup_lt_is_Some_2 new_grad i ltac:(lia)) as [g Hg].
    rewrite Hg, IH by (rewrite length_insert; lia).
    rewrite (take_S_r _ _ (scale theta norm g))
      by (apply list_lookup_insert_eq; lia).
    rewrite take_insert_ge, drop_insert_lt by lia.
    rewrite (drop_S _ _ _ Hg). cbn [map]. now rewrite <- app_assoc.
Qed.

Lemma rescale_map theta norm new_grad :
  rescale_from theta norm 0 (length new_grad) new_grad
  = map (scale theta norm) new_grad.
Proof. now rewrite rescale_from_spec. Qed.

Lemma py_sum_snoc xs x : py_sum (xs ++ [x]) = py_add (py_sum xs) x.
Proof. unfold py_sum. now rewrite fold_left_app. Qed.

Lemma py_sum_Int0 xs : py_sum xs = Int0 -> xs = [].
Proof.
  destruct xs as [|x xs] using rev_ind; [reflexivity|].
  rewrite py_sum_snoc. now destruct (py_sum xs).
Qed.

Lemma py_sum_Scalar xs : xs <> [] -> exists n, py_sum xs = Scalar n.
Proof.
  intros Hxs. destruct (py_sum xs) as [|n] eqn:Hsum; [|eauto].
  now apply py_sum_Int0 in Hsum.
Qed.

(** *** The accuracy of the computed norm *)

Lemma pow2_within x :
  finite x -> val x = 0 \/ normal (pow2 x) ->
  finite (pow2 x) /\ 0 <= val (pow2 x) /\
  within 1 (val x ^ 2) (val (pow2 x)).
Proof.
  intros Hx [H0 | Hn].
  - destruct (pow2_zero x Hx H0) as [Hf ->]. rewrite H0.
    split; [assumption|]. split; [lra|]. unfold within. lra.
  - split; [now apply normal_finite|].
    apply rounded_nonneg; [apply pow2_ge_0 | now apply pow2_rounds].
Qed.

Lemma sum_squares_within t :
  Forall (fun x => finite x /\ (val x = 0 \/ normal (pow2 x))) t ->
  finite (sum_squares t) ->
  0 <= val (sum_squares t) /\
  within (length t + 1) (total_of (fun x => val x ^ 2) t)
    (val (sum_squares t)).
Proof.
  intros Ht Hfin. unfold sum_squares in *.
  assert (Hsum : within (length t) (total_of (fun x => val (pow2 x)) t)
                   (val (reduce_sum (map pow2 t)))).
  { rewrite <- total_of_map, <- (length_map pow2).
    apply reduce_sum_rounds; [|assumption].
    apply List.Forall_forall. intros y Hy.
    apply in_map_iff in Hy as (x & <- & Hx).
    destruct (proj1 (List.Forall_forall _ _) Ht x Hx) as [Hf Hr].
    destruct (pow2_within x Hf Hr) as (? & ? & _). now split. }
  assert (Hsq : within 1 (total_of (fun x => val x ^ 2) t)
                  (total_of (fun x => val (pow2 x)) t)).
  { apply within_total. apply List.Forall_forall. intros x Hx.
    destruct (proj1 (List.Forall_forall _ _) Ht x Hx) as [Hf Hr].
    now destruct (pow2_within x Hf Hr) as (_ & _ & ?). }
  assert (H : within (1 + length t) (total_of (fun x => val x ^ 2) t)
                (val (reduce_sum (map pow2 t))))
    by (eapply within_trans; eassumption).
  rewrite Nat.add_comm. split; [|exact H].
  apply (within_sign _ _ _ H). apply total_of_nonneg.
  apply List.Forall_forall. intros x _. apply pow2_ge_0.
Qed.

Lemma py_sum_within xs : forall n,
  py_sum xs = Scalar n -> finiteN n ->
  Forall (fun x => finite x -> 0 <= val x) xs ->
  Forall finite xs /\ 0 <= valN n /\
  within (length xs) (total_of val xs) (valN n).
Proof.
  induction xs as [|x xs IH] using rev_ind; intros n Hsum Hfin Hpos;
    [discriminate|].
  rewrite py_sum_snoc in Hsum. apply Forall_app in Hpos as [Hxs Hx].
  inversion Hx as [|? ? Hx0 _]; subst.
  rewrite length_app, total_of_app. unfold total_of at 2.
  cbn [length map fold_right].
  destruct (py_sum xs) as [|m] eqn:Hm; injection Hsum as <-.
  - apply py_sum_Int0 in Hm as ->.
    pose proof (radd0_finite x Hfin) as Hf. rewrite radd0_exact by assumption.
    split; [now repeat constructor|]. split; [auto|].
    unfold total_of. cbn [map fold_right length Nat.add].
    rewrite Rplus_0_l, Rplus_0_r. apply within_refl. auto.
  - destruct (np_add_finite m x Hfin) as [Hfm Hfx].
    destruct (IH m eq_refl Hfm Hxs) as (Hall & Hm0 & Hw).
    destruct (rounded_nonneg (valN m + val x) (valN (np_add m x)))
      as [Hn0 Hn]; [specialize (Hx0 Hfx); lra | now apply np_add_rounds |].
    split; [apply Forall_app; now repeat constructor|].
    split; [assumption|].
    apply (within_trans _ _ _ (valN m + val x)); [|assumption].
    rewrite Rplus_0_r. apply within_plus; [assumption|].
    apply within_refl. auto.
Qed.

Lemma norm_within ts norm :
  computed_norm ts = Ok norm -> squares_in_range ts -> normal norm ->
  0 <= val norm /\
  within (roundings ts + 2) (l2_norm ts) (val norm).
Proof.
  intros Hnorm Hsq Hnormal. unfold computed_norm in Hnorm.
  destruct (py_sum (map sum_squares ts)) as [|n] eqn:Hsum; [discriminate|].
  injection Hnorm as <-.
  pose proof (cast_finite _ (normal_finite _ Hnormal)) as Hroot.
  pose proof (tf_sqrt_finite _ Hroot) as Hn.
  assert (Hpos : Forall (fun x => finite x -> 0 <= val x)
                   (map sum_squares ts)).
  { apply List.Forall_forall. intros y Hy.
    apply in_map_iff in Hy as (t & <- & Ht). intros Hf.
    apply sum_squares_within; [|assumption].
    exact (proj1 (List.Forall_forall _ _) Hsq t Ht). }
  destruct (py_sum_within _ n Hsum Hn Hpos) as (Hfin & Hn0 & Hw).
  rewrite length_map, total_of_map in Hw.
  assert (Hts : within (list_max (map length ts) + 1)
                  (total_of (fun x => val x ^ 2) (concat ts))
                  (total_of (fun t => val (sum_squares t)) ts)).
  { rewrite total_of_concat. apply within_total.
    apply List.Forall_forall. intros t Ht.
    assert (Hf : finite (sum_squares t)).
    { apply (proj1 (List.Forall_forall _ _) Hfin).
      now apply in_map. }
    destruct (sum_squares_within t
                (proj1 (List.Forall_forall _ _) Hsq t Ht) Hf) as [H0 H].
    apply (within_mono (length t + 1)); [|assumption..].
    apply Nat.add_le_mono_r.
    apply (proj1 (List.Forall_forall _ _)
             (proj1 (list_max_le _ _) (Nat.le_refl _))).
    now apply in_map. }
  pose proof (within_sqrt _ _ _ Hn0 (within_trans _ _ _ _ _ Hts Hw)) as Hs.
  destruct (rounded_nonneg (sqrt (valN n)) (valN (tf_sqrt n)))
    as [Hr0 Hr]; [apply sqrt_pos | now apply tf_sqrt_rounds |].
  destruct (rounded_nonneg (valN (tf_sqrt n)) (val (cast_float32 (tf_sqrt n))))
    as [Hc0 Hc]; [assumption | now apply cast_rounds |].
  split; [assumption|].
  pose proof (within_trans _ _ _ _ _ (within_trans _ _ _ _ _ Hs Hr) Hc) as H.
  unfold roundings, l2_norm.
  replace (length ts + list_max (map length ts) + 1 + 2)%nat
    with (list_max (map length ts) + 1 + length ts + 1 + 1)%nat by lia.
  exact H.
Qed.

(** *** The accuracy of the scaling *)

Lemma abs_square a : Rabs a * Rabs a = a ^ 2.
Proof. unfold Rabs. destruct Rcase_abs; ring. Qed.

Lemma entry_within theta norm x :
  finite theta -> finite norm -> 0 < val norm -> finite x ->
  val x = 0 \/ (normal (mul x theta) /\ normal (div (mul x theta) norm)) ->
  within 4 ((val theta / val norm) ^ 2 * val x ^ 2)
    (val (div (mul x theta) norm) ^ 2).
Proof.
  intros Htheta Hnorm Hpos Hx [H0 | [Hp Hr]].
  - destruct (mul_zero x theta Hx Htheta H0) as [Hf Hp0].
    rewrite (div_zero _ norm Hf Hnorm) by (assumption || lra).
    rewrite H0. unfold within. lra.
  - pose proof (rounded_abs _ _ (mul_rounds x theta Hx Htheta Hp)) as H1.
    pose proof (rounded_abs _ _
                  (div_rounds _ norm (normal_finite _ Hp) Hnorm
                     ltac:(lra) Hr)) as H2.
    assert (Hinv : 0 <= / val norm)
      by (apply Rlt_le, Rinv_0_lt_compat; assumption).
    apply (within_scale 1 (/ val norm) _ _ Hinv) in H1.
    replace (Rabs (val (mul x theta) / val norm))
      with (/ val norm * Rabs (val (mul x theta))) in H2
      by (unfold Rdiv; rewrite Rabs_mult, (Rabs_pos_eq (/ val norm));
          [ring | assumption]).
    pose proof (within_trans _ _ _ _ _ H1 H2) as H3.
    pose proof (within_mult _ _ _ _ _ _ (Rabs_pos _) (Rabs_pos _) H3 H3)
      as H4.
    rewrite abs_square in H4.
    replace (/ val norm * Rabs (val x * val theta)
             * (/ val norm * Rabs (val x * val theta)))
      with ((val theta / val norm) ^ 2 * val x ^ 2) in H4; [exact H4|].
    replace (/ val norm * Rabs (val x * val theta)
             * (/ val norm * Rabs (val x * val theta)))
      with (/ val norm * / val norm
            * (Rabs (val x * val theta) * Rabs (val x * val theta)))
      by ring.
    rewrite abs_square. unfold Rdiv. ring.
Qed.

Lemma scaled_within theta norm ts :
  finite theta -> 0 < val theta -> finite norm -> 0 < val norm ->
  squares_in_range ts -> scaling_in_range theta norm ts ->
  within 2 (val theta / val norm * l2_norm ts)
    (l2_norm (map (scale theta norm) ts)).
Proof.
  intros Htheta Hpos Hnorm Hnpos Hsq Hsc. unfold l2_norm.
  change (map (scale theta norm) ts)
    with (map (map (fun x => div (mul x theta) norm)) ts).
  rewrite <- concat_map, total_of_map.
  assert (Hc : 0 <= val theta / val norm)
    by (apply Rlt_le, Rdiv_lt_0_compat; assumption).
  replace (val theta / val norm
           * sqrt (total_of (fun x => val x ^ 2) (concat ts)))
    with (sqrt ((val theta / val norm) ^ 2
                * total_of (fun x => val x ^ 2) (concat ts))).
  2:{ rewrite sqrt_mult.
      - now rewrite sqrt_pow2.
      - apply pow2_ge_0.
      - apply total_of_nonneg, List.Forall_forall. intros x _.
        apply pow2_ge_0. }
  apply (within_sqrt_half 2).
  - apply total_of_nonneg, List.Forall_forall. intros x _. apply pow2_ge_0.
  - rewrite <- total_of_scale. apply within_total.
    apply List.Forall_concat in Hsq, Hsc.
    apply List.Forall_forall. intros x Hx.
    apply entry_within; try assumption.
    + apply (proj1 (List.Forall_forall _ _) Hsq x Hx).
    + apply (proj1 (List.Forall_forall _ _) Hsc x Hx).
Qed.

(** *** The function *)

Lemma computed_norm_returns ts :
  ts <> [] -> exists norm, computed_norm ts = Ok norm.
Proof.
  intros Hts. unfold computed_norm.
  destruct (py_sum_Scalar (map sum_squares ts)) as [n ->]; [|eauto].
  now destruct ts.
Qed.

Lemma grad_clipping_empty theta :
  grad_clipping [] theta = Raise InvalidArgumentError.
Proof. reflexivity. Qed.

(** C1: for gradients that are not an empty list and a positive [theta],
    one norm is computed from all tensors; the result is the input (a
    sparse gradient as its dense tensor) unless the norm is greater than
    [theta], and otherwise every entry [x] of every tensor becomes
    [x * theta / norm].  When no square overflows or underflows and the
    norm is a normal number, the norm is the global L2 norm of all the
    entries up to the roundings of the sum, and when no product or
    quotient of the scaling overflows or underflows either, the global L2
    norm of the result is [theta] up to those roundings and four more. *)
Theorem grad_clipping_norm (grads : list grad) (theta : Number) :
  grads <> [] ->
  finite (tf_constant theta) -> 0 < val (tf_constant theta) ->
  exists norm,
    computed_norm (map dense grads) = Ok norm /\
    (greater norm (tf_constant theta) = false ->
     grad_clipping grads theta = Ok (map dense grads)) /\
    (greater norm (tf_constant theta) = true ->
     grad_clipping grads theta
     = Ok (map (scale (tf_constant theta) norm) (map dense grads))) /\
    (squares_in_range (map dense grads) -> normal norm ->
     within (roundings (map dense grads) + 2)
       (l2_norm (map dense grads)) (val norm) /\
     (greater norm (tf_constant theta) = true ->
      scaling_in_range (tf_constant theta) norm (map dense grads) ->
      exists out,
        grad_clipping grads theta = Ok out /\
        val (tf_constant theta) * (1 - u) ^ (roundings (map dense grads) + 2)
        <= l2_norm out * (1 + u) ^ 2 /\
        l2_norm out * (1 - u) ^ 2
        <= val (tf_constant theta)
           * (1 + u) ^ (roundings (map dense grads) + 2))).
Proof.
  intros Hgrads Htheta Hpos. set (th := tf_constant theta) in *.
  destruct (computed_norm_returns (map dense grads)) as [norm Hnorm];
    [now destruct grads|].
  exists norm. split; [assumption|].
  assert (Hclip : greater norm th = true ->
                  grad_clipping grads theta
                  = Ok (map (scale th norm) (map dense grads))).
  { intros Hgt. unfold grad_clipping. fold th. cbv zeta.
    rewrite Hnorm, Hgt. now rewrite rescale_map. }
  split; [|split; [exact Hclip|]].
  { intros Hle. unfold grad_clipping. fold th. cbv zeta.
    now rewrite Hnorm, Hle. }
  intros Hsq Hnormal.
  destruct (norm_within _ _ Hnorm Hsq Hnormal) as [Hn0 Hw].
  split; [assumption|]. intros Hgt Hsc.
  exists (map (scale th norm) (map dense grads)).
  split; [now apply Hclip|].
  pose proof (normal_finite _ Hnormal) as Hfin.
  pose proof (greater_finite _ _ Hfin Htheta Hgt) as Hlt.
  destruct (scaled_within th norm (map dense grads))
    as [Hlo Hhi]; try assumption; [lra|].
  destruct Hw as [Hwlo Hwhi].
  assert (Hc : 0 < val th / val norm)
    by (apply Rdiv_lt_0_compat; lra).
  assert (Hcn : val th / val norm * val norm = val th)
    by (field; lra).
  split.
  - apply Rle_trans with (val th / val norm * l2_norm (map dense grads));
      [|assumption].
    rewrite <- Hcn at 1. rewrite Rmult_assoc.
    apply Rmult_le_compat_l; [lra | assumption].
  - apply Rle_trans with (val th / val norm * l2_norm (map dense grads));
      [assumption|].
    rewrite <- Hcn at 2. rewrite Rmult_assoc.
    apply Rmult_le_compat_l; [lra | assumption].
Qed.

End GradClipping.

Definition no_slices {A} (s : Empty_set) : A := match s with end.

(** *** The function on binary32 numbers *)

(** [grad_clipping] on dense float32 tensors, with the sums of squares
    added up as float32 scalars (as float64 scalars the runs below give
    the same results). *)
Definition grad_clipping32 (grads : list (list spec_float)) (theta : Z)
    : result (list (list spec_float)) :=
  grad_clipping spec_float spec_float
    (fun x => Float32.mul x x) Float32.reduce_sum Float32.mul Float32.div
    Float32.greater Z Float32.of_Z (Float32.add Float32.zero) Float32.add
    Float32.sqrt (fun n => n) Empty_set no_slices
    (map (Tensor spec_float Empty_set) grads) theta.

Definition computed_norm32 (ts : list (list spec_float))
    : result spec_float :=
  computed_norm spec_float spec_float (fun x => Float32.mul x x)
    Float32.reduce_sum (Float32.add Float32.zero) Float32.add Float32.sqrt
    (fun n => n) ts.

(** 1e20 as a float32. *)
Definition f1e20 : spec_float := Float32.of_Z (10 ^ 20).

(** A tensor with entries 3 and 4 clipped to norm 1: the entries become
    the float32 numbers next to 0.6 and 0.8. *)
Example grad_clipping32_3_4 :
  grad_clipping32 [[Float32.of_Z 3; Float32.of_Z 4]] 1
  = Ok [[S754_finite false 10066330 (-24);
         S754_finite false 13421773 (-24)]].
Proof. vm_compute. reflexivity. Qed.

(** That result has, for the unit roundoff 2^-24 of binary32, the norm
    that the theorem above gives for one tensor of two entries: 1 up to
    4 + 2 and 2 roundings. *)
Example grad_clipping32_3_4_norm :
  (1 * (1 - / 2 ^ 24) ^ 6
   <= l2_norm spec_float Float32.val
        [[S754_finite false 10066330 (-24);
          S754_finite false 13421773 (-24)]] * (1 + / 2 ^ 24) ^ 2 /\
   l2_norm spec_float Float32.val
     [[S754_finite false 10066330 (-24); S754_finite false 13421773 (-24)]]
   * (1 - / 2 ^ 24) ^ 2
   <= 1 * (1 + / 2 ^ 24) ^ 6)%R.
Proof.
  unfold l2_norm, total_of.
  cbn [concat app map fold_right Float32.val cond_Zopp]. unfold powerRZ.
  replace (Pos.to_nat 24) with 24%nat by reflexivity.
  replace (2 ^ 24)%R with 16777216%R by (cbn [pow]; lra).
  set (u := (/ 16777216)%R).
  assert (Hu : (0 <= u < 1)%R) by (unfold u; lra).
  set (total := ((10066330 * u) ^ 2 + ((13421773 * u) ^ 2 + 0))%R).
  assert (Hlo : (1 * 1 <= total)%R).
  { unfold total, u. cbn [pow]. lra. }
  assert (Hhi : (total <= (1 + u) * (1 + u))%R).
  { unfold total, u. cbn [pow]. lra. }
  assert (Hlo' : (sqrt (1 * 1) <= sqrt total)%R)
    by (apply sqrt_le_1; lra).
  assert (Hhi' : (sqrt total <= sqrt ((1 + u) * (1 + u)))%R)
    by (apply sqrt_le_1; nra).
  rewrite sqrt_square in Hlo', Hhi' by lra.
  pose proof (low_le_1 u Hu 6) as Hl. pose proof (low_pos u Hu 6) as Hp.
  pose proof (high_ge_1 u Hu 6) as Hh.
  pose proof (low_le_1 u Hu 2) as Hl2. pose proof (low_pos u Hu 2) as Hp2.
  pose proof (high_ge_1 u Hu 2) as Hh2.
  split.
  - apply Rle_trans with 1%R; [lra|]. nra.
  - pose proof (high_ge_1 u Hu 5) as Hh5.
    change ((1 + u) ^ 6)%R with ((1 + u) * (1 + u) ^ 5)%R.
    apply Rle_trans with (1 + u)%R; nra.
Qed.

(** C1, as stated, fails: the squares of the entries 1e20 overflow, the
    norm is infinite and greater than [theta = 1], and every entry is
    divided by it: the result is the zero tensor, of norm 0 and not 1.
    And for the empty list there is no result. *)
Lemma overflow_counterexample :
  computed_norm32 [[f1e20; f1e20]] = Ok Float32.infinity /\
  Float32.greater Float32.infinity (Float32.of_Z 1) = true /\
  grad_clipping32 [[f1e20; f1e20]] 1
  = Ok [[Float32.zero; Float32.zero]] /\
  l2_norm spec_float Float32.val [[Float32.zero; Float32.zero]] = 0%R /\
  Float32.val (Float32.of_Z 1) = 1%R /\
  grad_clipping32 [] 1 = Raise InvalidArgumentError.
Proof.
  split; [vm_compute; reflexivity|]. split; [vm_compute; reflexivity|].
  split; [vm_compute; reflexivity|]. split; [|split].
  - unfold l2_norm, total_of, Float32.zero.
    cbn [concat app map fold_right Float32.val].
    replace (0 ^ 2 + (0 ^ 2 + 0))%R with 0%R by lra. apply sqrt_0.
  - unfold Float32.of_Z.
    replace (binary_normalize Float32.prec Float32.emax 1 0 false)
      with (S754_finite false 8388608 (-23)) by (vm_compute; reflexivity).
    cbn [Float32.val cond_Zopp]. unfold powerRZ.
    replace (Pos.to_nat 23) with 23%nat by reflexivity.
    cbn [pow]. lra.
  - reflexivity.
Qed.

(** *** The function on exact numbers *)

Definition exact_greater (x y : R) : bool :=
  if Rlt_dec y x then true else false.

(** [grad_clipping] with arithmetic that does not round. *)
Definition exact_clipping (grads : list (list R)) (theta : R)
    : result (list (list R)) :=
  grad_clipping R R (fun x => x * x)%R (fold_right Rplus 0%R) Rmult Rdiv
    exact_greater R (fun x => x) (fun x => 0 + x)%R Rplus sqrt (fun n => n)
    Empty_set no_slices (map (Tensor R Empty_set) grads) theta.

Lemma exact_rounds (f e : R) : f = e -> (Rabs (f - e) <= 0 * Rabs f)%R.
Proof. intros ->. rewrite Rminus_diag, Rabs_R0. lra. Qed.

Lemma grad_clipping_norm_witness :
  exists out,
    exact_clipping [[3; 4]%R] 1%R = Ok out /\
    l2_norm R (fun x => x) out = 1%R.
Proof.
  destruct (grad_clipping_norm R R (fun x => x * x)%R (fold_right Rplus 0%R)
              Rmult Rdiv exact_greater R (fun x => x) (fun x => 0 + x)%R
              Rplus sqrt (fun n => n) Empty_set no_slices
              (fun x => x) (fun n => n) (fun _ => True) (fun _ => True)
              (fun _ => True) 0%R)
    with (grads := [Tensor R Empty_set [3; 4]%R]) (theta := 1%R)
    as (norm & Hnorm & _ & _ & H).
  - lra.
  - trivial.
  - intros x _ _. apply exact_rounds. ring.
  - intros x _ ->. split; [trivial | ring].
  - intros xs Hxs _. unfold within, total_of. rewrite map_id.
    rewrite Rminus_0_r, Rplus_0_r, !pow1. lra.
  - trivial.
  - intros x _. ring.
  - intros n x _. now split.
  - intros n x _. apply exact_rounds. reflexivity.
  - trivial.
  - intros n _ _. apply exact_rounds. reflexivity.
  - trivial.
  - intros n _. apply exact_rounds. reflexivity.
  - intros x y _ _. unfold exact_greater.
    destruct (Rlt_dec y x); [trivial | discriminate].
  - intros x y _ _ _. apply exact_rounds. reflexivity.
  - intros x y _ _ ->. split; [trivial | ring].
  - intros x y _ _ _ _. apply exact_rounds. reflexivity.
  - intros x y _ _ Hy ->. unfold Rdiv. ring.
  - discriminate.
  - trivial.
  - lra.
  - injection Hnorm as <-.
    assert (Hgt : exact_greater (sqrt (0 + (3 * 3 + (4 * 4 + 0)) )) 1 = true).
    { replace (0 + (3 * 3 + (4 * 4 + 0)))%R with (5 * 5)%R by lra.
      rewrite sqrt_square by lra. unfold exact_greater.
      destruct (Rlt_dec 1 5); [reflexivity | lra]. }
    destruct H as [_ H]; [repeat constructor; lra | trivial |].
    destruct (H Hgt) as (out & Hout & Hlo & Hhi);
      [repeat constructor; right; trivial|].
    exists out. split; [exact Hout|].
    rewrite Rminus_0_r, Rplus_0_r, !pow1 in Hlo, Hhi. lra.
Defined.

End Clip.

(** ** The translation dataset: preprocess_nmt, tokenize_nmt *)

Module Translation.

Import Str.

Definition space : char := 32%N.
Definition tab : char := 9%N.
Definition newline : char := 10%N.

(** [s.replace(old, new)] for one-character strings. *)
Definition replace_char (old new : char) (s : str) : str :=
  map (fun c => if (c =? old)%N then new else c) s.

(** [char in set(',.!?')] *)
Definition is_punct (c : char) : bool := bool_decide (c ∈ py ",.!?").

(** The inner function of [preprocess_nmt]:
    [char in set(',.!?') and prev_char != ' '] *)
Definition no_space (c prev_char : char) : bool :=
  is_punct c && negb (prev_char =? space)%N.

(** [[' ' + char if i > 0 and no_space(char, text[i - 1]) else char
      for i, char in enumerate(text)]]; [prev] is [text[i - 1]], absent
    when [i = 0]. *)
Fixpoint spaced (prev : option char) (text : str) : list str :=
  match text with
  | [] => []
  | c :: text' =>
      (match prev with
       | Some p => if no_space c p then [space; c] else [c]
       | None => [c]
       end) :: spaced (Some c) text'
  end.

Section Preprocess.

(** [s.lower()] *)
Variable lower : str -> str.

(** [preprocess_nmt(text)] *)
Definition preprocess_nmt (text : str) : str :=
  let text :=
    lower (replace_char 160%N space (replace_char 8239%N space text)) in
  join (spaced None text).

End Preprocess.

(** The lines that the loop of [tokenize_nmt] reaches:
    [if num_examples and i > num_examples: break] stops at the first
    line whose index is above a non-zero [num_examples]. *)
Definition reached (num_examples : option Z) (lines : list str) : list str :=
  match num_examples with
  | Some n => if n =? 0 then lines else firstn (Z.to_nat (n + 1)) lines
  | None => lines
  end.

(** What a line adds to [source] and [target]: its two tab-separated
    parts, split at spaces, when it has exactly two parts. *)
Definition example_of (line : str) : list (list str * list str) :=
  match split_sep tab line with
  | [src; tgt] => [(split_sep space src, split_sep space tgt)]
  | _ => []
  end.

(** [tokenize_nmt(text, num_examples=None)] *)
Definition tokenize_nmt (text : str) (num_examples : option Z)
    : list (list str) * list (list str) :=
  let examples :=
    flat_map example_of (reached num_examples (split_sep newline text)) in
  (map fst examples, map snd examples).

(** A line with exactly one tab. *)
Definition two_parts (line : str) : Prop :=
  length (split_sep tab line) = 2%nat.

(** The text of an example: its source and target tokens joined by
    spaces, with a tab between the two. *)
Definition example_line (src tgt : list str) : str :=
  join_sep [space] src ++ [tab] ++ join_sep [space] tgt.

(** In [s] every punctuation mark that has a character before it has a
    space before it. *)
Definition punct_after_space (s : str) : Prop :=
  forall l a b r, s = l ++ a :: b :: r -> is_punct b = true -> a = space.

(** A punctuation mark can only be the first character of [token]. *)
Definition punct_only_first (token : str) : Prop :=
  Forall (fun c => is_punct c = false) (tl token).

(** [p] is a run of consecutive characters of [s]. *)
Definition infix (p s : str) : Prop := exists l r, s = l ++ p ++ r.

(** *** Splitting at a separator and joining again *)

Lemma split_sep_nonempty sep s : split_sep sep s <> [].
Proof.
  destruct s as [|c s]; simpl; [discriminate|].
  destruct (c =? sep)%N; [discriminate|].
  destruct (split_sep sep s); discriminate.
Qed.

Lemma join_sep_cons sep (w : str) ws :
  ws <> [] -> join_sep sep (w :: ws) = w ++ sep ++ join_sep sep ws.
Proof. destruct ws; [contradiction | reflexivity]. Qed.

Lemma join_split_sep sep s : join_sep [sep] (split_sep sep s) = s.
Proof.
  induction s as [|c s IH]; [reflexivity|]. simpl.
  pose proof (split_sep_nonempty sep s) as Hne.
  destruct (N.eqb_spec c sep) as [-> | Hc].
  - rewrite join_sep_cons by assumption. simpl. now rewrite IH.
  - destruct (split_sep sep s) as [|w ws]; [contradiction|].
    destruct ws as [|w' ws]; simpl in *; now rewrite <- IH.
Qed.

Lemma split_sep_no_sep sep s :
  Forall (fun p => ~ In sep p) (split_sep sep s).
Proof.
  induction s as [|c s IH]; simpl; [repeat constructor; tauto|].
  destruct (N.eqb_spec c sep) as [-> | Hc].
  - constructor; [tauto | exact IH].
  - destruct (split_sep sep s) as [|w ws]; [repeat constructor; simpl|].
    + intros [H | []]. congruence.
    + inversion IH as [|? ? Hw Hws]; subst. constructor; [|exact Hws].
      intros [H | H]; [congruence | contradiction].
Qed.

Lemma split_sep_head sep s w ws :
  split_sep sep s = w :: ws -> exists r, s = w ++ r.
Proof.
  revert w ws. induction s as [|c s IH]; intros w ws; simpl.
  - intros [= <- <-]. now exists [].
  - destruct (c =? sep)%N; [intros [= <- <-]; now exists (c :: s)|].
    destruct (split_sep sep s) as [|w' ws'] eqn:Hs.
    + intros [= <- <-]. destruct (split_sep_nonempty sep s Hs).
    + intros [= <- <-]. destruct (IH w' ws' eq_refl) as [r ->].
      now exists r.
Qed.

Lemma infix_cons c p s : infix p s -> infix p (c :: s).
Proof. intros (l & r & ->). now exists (c :: l), r. Qed.

Lemma infix_trans p q s : infix p q -> infix q s -> infix p s.
Proof.
  intros (l & r & ->) (l' & r' & ->). exists (l' ++ l), (r ++ r').
  now rewrite <- !app_assoc.
Qed.

Lemma split_sep_infix sep s p : In p (split_sep sep s) -> infix p s.
Proof.
  revert p. induction s as [|c s IH]; intros p; simpl.
  - intros [<- | []]. now exists [], [].
  - destruct (c =? sep)%N.
    + intros [<- | Hp]; [now exists [], (c :: s) | apply infix_cons; auto].
    + destruct (split_sep sep s) as [|w ws] eqn:Hs.
      * intros [<- | []]. destruct (split_sep_nonempty sep s Hs).
      * intros [<- | Hp].
        -- destruct (split_sep_head sep s w ws Hs) as [r ->].
           now exists [], r.
        -- apply infix_cons, IH. now right.
Qed.

(** Three lines for the examples: "go<tab>va", "hi<tab>salut" and
    "run<tab>cours". *)
Definition example_text : str :=
  py "go" ++ [tab] ++ py "va" ++ [newline]
  ++ py "hi" ++ [tab] ++ py "salut" ++ [newline]
  ++ py "run" ++ [tab] ++ py "cours".

(** *** tokenize_nmt: how many examples, and the way back *)

Lemma length_example_of line : (length (example_of line) <= 1)%nat.
Proof.
  unfold example_of.
  destruct (split_sep tab line) as [|a [|b [|c l]]]; simpl; lia.
Qed.

Lemma example_of_two_parts line :
  two_parts line ->
  exists src tgt,
    line = src ++ [tab] ++ tgt /\
    example_of line = [(split_sep space src, split_sep space tgt)].
Proof.
  unfold two_parts, example_of. intros H.
  pose proof (join_split_sep tab line) as Hjoin.
  destruct (split_sep tab line) as [|a [|b [|c l]]]; try discriminate H.
  exists a, b. split; [now rewrite <- Hjoin | reflexivity].
Qed.

Lemma length_examples_le lines :
  (length (flat_map example_of lines) <= length lines)%nat.
Proof.
  induction lines as [|line lines IH]; simpl; [lia|].
  rewrite length_app. pose proof (length_example_of line). lia.
Qed.

Lemma length_examples lines :
  Forall two_parts lines ->
  length (flat_map example_of lines) = length lines.
Proof.
  induction 1 as [|line lines Hline _ IH]; simpl; [reflexivity|].
  destruct (example_of_two_parts line Hline) as (a & b & _ & ->).
  simpl. now rewrite IH.
Qed.

Lemma examples_lines lines :
  Forall two_parts lines ->
  zip_with example_line (map fst (flat_map example_of lines))
    (map snd (flat_map example_of lines))
  = lines.
Proof.
  induction 1 as [|line lines Hline _ IH]; simpl; [reflexivity|].
  destruct (example_of_two_parts line Hline) as (a & b & Heq & ->).
  simpl. rewrite IH. f_equal. unfold example_line.
  now rewrite !join_split_sep.
Qed.

(** X10: [tokenize_nmt] returns as many target sentences as source
    sentences; with a non-zero [num_examples] it reads the lines with
    index 0 to [num_examples], so it returns at most [num_examples + 1]
    pairs, and exactly that many (or one per line, for a shorter text)
    when every line has one tab. *)
Theorem tokenize_nmt_counts (text : str) (num_examples : option Z) :
  length (fst (tokenize_nmt text num_examples))
  = length (snd (tokenize_nmt text num_examples)) /\
  (forall n, num_examples = Some n -> n <> 0 ->
     (length (fst (tokenize_nmt text num_examples))
      <= Z.to_nat (n + 1))%nat) /\
  (forall n, num_examples = Some n -> 0 < n ->
     Forall two_parts (split_sep newline text) ->
     length (fst (tokenize_nmt text num_examples))
     = Nat.min (Z.to_nat (n + 1)) (length (split_sep newline text))).
Proof.
  unfold tokenize_nmt. cbn [fst snd]. rewrite !length_map.
  split; [reflexivity|]. split.
  - intros n -> Hn. unfold reached.
    rewrite (proj2 (Z.eqb_neq n 0) Hn).
    etransitivity; [apply length_examples_le|].
    rewrite length_firstn. lia.
  - intros n -> Hn Hlines. unfold reached.
    rewrite (proj2 (Z.eqb_neq n 0)) by lia.
    rewrite length_examples by (now apply Forall_take).
    apply length_firstn.
Qed.

Lemma tokenize_nmt_counts_witness :
  length (fst (tokenize_nmt example_text (Some 1))) = 2%nat.
Proof.
  apply (proj2 (proj2 (tokenize_nmt_counts example_text (Some 1)))
           1 eq_refl).
  - lia.
  - repeat constructor.
Defined.

(** X11: when every line of the text has exactly one tab and no limit is
    set, the text is recovered from the result: joining the tokens of
    each sentence by spaces, the two sentences of a pair by a tab, and
    the pairs by newlines. *)
Theorem tokenize_nmt_join (text : str) (num_examples : option Z) :
  Forall two_parts (split_sep newline text) ->
  num_examples = None \/ num_examples = Some 0 ->
  join_sep [newline]
    (zip_with example_line (fst (tokenize_nmt text num_examples))
       (snd (tokenize_nmt text num_examples)))
  = text.
Proof.
  intros Hlines Hnum. unfold tokenize_nmt. cbn [fst snd].
  replace (reached num_examples (split_sep newline text))
    with (split_sep newline text) by (destruct Hnum as [-> | ->]; reflexivity).
  rewrite examples_lines by assumption. apply join_split_sep.
Qed.

Lemma tokenize_nmt_join_witness :
  join_sep [newline]
    (zip_with example_line (fst (tokenize_nmt example_text None))
       (snd (tokenize_nmt example_text None)))
  = example_text.
Proof.
  apply tokenize_nmt_join; [repeat constructor | now left].
Defined.

(** *** preprocess_nmt: punctuation after a space *)

(** [prev] is the character before [s]. *)
Fixpoint spaced_after (prev : char) (s : str) : Prop :=
  match s with
  | [] => True
  | b :: s' => (is_punct b = true -> prev = space) /\ spaced_after b s'
  end.

Lemma spaced_after_pairs s : forall prev,
  spaced_after prev s -> punct_after_space (prev :: s).
Proof.
  induction s as [|c s IH]; intros prev Hs l a b r Heq Hb.
  - destruct l as [|x [|y l]]; discriminate Heq.
  - destruct Hs as [Hc Hs]. destruct l as [|x l].
    + injection Heq as <- <- _. auto.
    + injection Heq as _ Heq. exact (IH c Hs l a b r Heq Hb).
Qed.

Lemma spaced_after_spaced text : forall prev,
  spaced_after prev (join (spaced (Some prev) text)).
Proof.
  unfold join.
  induction text as [|c text IH]; intros prev; [exact I|].
  cbn [spaced concat]. unfold no_space.
  destruct (is_punct c) eqn:Hc; cbn [andb].
  - destruct (N.eqb_spec prev space) as [-> | Hp]; cbn [negb app].
    + split; [reflexivity | apply IH].
    + split; [discriminate|]. split; [reflexivity | apply IH].
  - cbn [app]. split; [congruence | apply IH].
Qed.

Lemma punct_after_space_spaced text :
  punct_after_space (join (spaced None text)).
Proof.
  destruct text as [|c text]; [intros [|x [|y l]] a b r H; discriminate H|].
  apply (spaced_after_pairs _ c). apply spaced_after_spaced.
Qed.

Lemma punct_after_space_infix p s :
  infix p s -> punct_after_space s -> punct_after_space p.
Proof.
  intros (l & r & ->) Hs l' a b r' -> Hb.
  apply (Hs (l ++ l') a b (r' ++ r)); [|exact Hb].
  now rewrite <- !app_assoc.
Qed.

Lemma punct_only_first_token t :
  punct_after_space t -> ~ In space t -> punct_only_first t.
Proof.
  unfold punct_only_first. destruct t as [|c t]; [constructor|]. simpl.
  revert c. induction t as [|b t IH]; intros c Hp Hsp; constructor.
  - destruct (is_punct b) eqn:Hb; [|reflexivity].
    destruct Hsp. left. exact (Hp [] c b t eq_refl Hb).
  - apply (IH b).
    + intros l x y r Heq. apply (Hp (c :: l) x y r). now rewrite Heq.
    + intros H. apply Hsp. now right.
Qed.

Lemma In_take {B} (x : B) n l : In x (firstn n l) -> In x l.
Proof.
  revert l; induction n as [|n IH]; intros [|y l]; simpl; try tauto.
  intros [H | H]; [now left | right; auto].
Qed.

Lemma In_reached num_examples lines line :
  In line (reached num_examples lines) -> In line lines.
Proof.
  unfold reached. destruct num_examples as [n|]; [|tauto].
  destruct (n =? 0); [tauto | apply In_take].
Qed.

(** Every token of the result is a run of characters of the text
    without a space. *)
Lemma tokenize_nmt_tokens text num_examples toks t :
  In toks (fst (tokenize_nmt text num_examples)
           ++ snd (tokenize_nmt text num_examples)) ->
  In t toks -> infix t text /\ ~ In space t.
Proof.
  unfold tokenize_nmt. cbn [fst snd]. intros Htoks Ht.
  assert (Hex : exists line src tgt,
            In line (split_sep newline text) /\
            split_sep tab line = [src; tgt] /\
            (toks = split_sep space src \/ toks = split_sep space tgt)).
  { apply in_app_or in Htoks.
    assert (Hin : exists ex,
              In ex (flat_map example_of
                       (reached num_examples (split_sep newline text))) /\
              (toks = fst ex \/ toks = snd ex)).
    { destruct Htoks as [H | H]; apply in_map_iff in H as (ex & <- & Hex);
        exists ex; auto. }
    destruct Hin as (ex & Hex & Hor).
    apply in_flat_map in Hex as (line & Hline & Hex).
    apply In_reached in Hline. unfold example_of in Hex.
    destruct (split_sep tab line) as [|a [|b [|c l]]] eqn:Hsplit;
      try contradiction.
    destruct Hex as [<- | []]. exists line, a, b. auto. }
  destruct Hex as (line & src & tgt & Hline & Hsplit & Hor).
  assert (Hparts : forall part, In part [src; tgt] -> infix part text).
  { intros part Hpart. apply (infix_trans _ line).
    - apply (split_sep_infix tab). now rewrite Hsplit.
    - now apply (split_sep_infix newline). }
  assert (Hpiece : forall part, In part [src; tgt] ->
            In t (split_sep space part) -> infix t text /\ ~ In space t).
  { intros part Hpart Hin. split.
    - apply (infix_trans _ part); [now apply (split_sep_infix space)|].
      now apply Hparts.
    - pose proof (split_sep_no_sep space part) as Hno.
      rewrite List.Forall_forall in Hno. now apply Hno. }
  destruct Hor as [-> | ->];
    [apply (Hpiece src) | apply (Hpiece tgt)]; simpl; auto.
Qed.

Section PreprocessThenTokenize.

Variable lower : str -> str.

(** X12: in the text that [preprocess_nmt] returns, every punctuation
    mark [,.!?] other than a first character comes right after a
    space. *)
Theorem preprocess_nmt_spaces (text : str) :
  punct_after_space (preprocess_nmt lower text).
Proof. apply punct_after_space_spaced. Qed.

(** X13: in the sentences that [tokenize_nmt] makes of a preprocessed
    text, a punctuation mark [,.!?] is never inside or at the end of a
    token: it can only be the first character of a token. *)
Theorem tokens_punct_first (text : str) (num_examples : option Z) :
  Forall (Forall punct_only_first)
    (fst (tokenize_nmt (preprocess_nmt lower text) num_examples)
     ++ snd (tokenize_nmt (preprocess_nmt lower text) num_examples)).
Proof.
  apply List.Forall_forall. intros toks Htoks.
  apply List.Forall_forall. intros t Ht.
  destruct (tokenize_nmt_tokens _ _ _ _ Htoks Ht) as [Hinfix Hspace].
  apply punct_only_first_token; [|exact Hspace].
  apply (punct_after_space_infix _ _ Hinfix).
  apply punct_after_space_spaced.
Qed.

End PreprocessThenTokenize.

Example preprocess_nmt_example :
  preprocess_nmt (fun s => s) (py "go now.   hi!,x")
  = py "go now .   hi ! ,x".
Proof. reflexivity. Qed.

End Translation.

(** ** Averages over a dataset: evaluate_loss, evaluate_accuracy *)

Module Evaluate.

(** What can go wrong when the two sums are read and divided. *)
Inductive failure :=
| ZeroDivisionError
| IndexError.

Inductive outcome :=
| Value (f : float)
| Failure (e : failure).

(** [a / b] on Python floats: division by a zero of either sign
    raises. *)
Definition truediv (a b : float) : outcome :=
  if (b =? 0)%float then Failure ZeroDivisionError else Value (a / b).

(** [metric[0] / metric[1]] *)
Definition ratio (metric : Accumulator.t) : outcome :=
  match Accumulator.getitem metric 0, Accumulator.getitem metric 1 with
  | Some a, Some b => truediv a b
  | _, _ => Failure IndexError
  end.

Section Evaluate.

(** A batch [(X, y)] of the data iterator, and the two numbers that the
    loop body passes to [metric.add], as the floats [add] makes of them:
    [tf.reduce_sum(l)] and [d2l.size(l)] for [l = loss(net(X), y)] in
    [evaluate_loss]; [accuracy(net(X), y)] and [d2l.size(y)] in
    [evaluate_accuracy]. *)
Variable Batch : Type.
Variable loss_sum : Batch -> float.
Variable loss_size : Batch -> float.
Variable correct : Batch -> float.
Variable size : Batch -> float.

(** [evaluate_loss(net, data_iter, loss)] *)
Definition evaluate_loss (data_iter : list Batch) : outcome :=
  let metric :=
    fold_left (fun metric b => Accumulator.add metric [loss_sum b; loss_size b])
      data_iter (Accumulator.init 2) in
  ratio metric.

(** [evaluate_accuracy(net, data_iter)] *)
Definition evaluate_accuracy (data_iter : list Batch) : outcome :=
  let metric :=
    fold_left (fun metric b => Accumulator.add metric [correct b; size b])
      data_iter (Accumulator.init 2) in
  ratio metric.

(** *** The two running sums *)

Lemma two_sums (f g : Batch -> float) data_iter : forall a b,
  fold_left (fun metric x => Accumulator.add metric [f x; g x]) data_iter
    (Accumulator.mk [a; b])
  = Accumulator.mk
      [fold_left (fun s v => (s + v)%float) (map f data_iter) a;
       fold_left (fun s v => (s + v)%float) (map g data_iter) b].
Proof.
  induction data_iter as [|x data_iter IH]; intros a b; [reflexivity|].
  simpl. unfold Accumulator.add at 2. simpl. apply IH.
Qed.

(** X14: [evaluate_loss] and [evaluate_accuracy] divide the sum of the
    first numbers of the batches by the sum of the second ones, both
    added from 0.0 in batch order; reading the two slots never fails,
    and the division raises ZeroDivisionError when the second sum is
    zero, as it is for an iterator without batches. *)
Theorem evaluate_is_ratio_of_sums (data_iter : list Batch) :
  evaluate_loss data_iter
  = truediv (Accumulator.fsum (map loss_sum data_iter))
      (Accumulator.fsum (map loss_size data_iter)) /\
  evaluate_accuracy data_iter
  = truediv (Accumulator.fsum (map correct data_iter))
      (Accumulator.fsum (map size data_iter)) /\
  evaluate_loss [] = Failure ZeroDivisionError /\
  evaluate_accuracy [] = Failure ZeroDivisionError.
Proof.
  unfold evaluate_loss, evaluate_accuracy.
  change (Accumulator.init 2) with (Accumulator.mk [0%float; 0%float]).
  rewrite !two_sums. repeat split.
Qed.

End Evaluate.

End Evaluate.

(** ** Labels of Fashion-MNIST: get_fashion_mnist_labels *)

Module Labels.

Import Str.

Definition text_labels : list str :=
  [py "t-shirt"; py "trouser"; py "pullover"; py "dress"; py "coat";
   py "sandal"; py "shirt"; py "sneaker"; py "bag"; py "ankle boot"].

(** [get_fashion_mnist_labels(labels)]:
    [[text_labels[int(i)] for i in labels]]; a label is given by the
    integer [int(i)], and [None] is the IndexError of a label that the
    list does not have. *)
Definition get_fashion_mnist_labels (labels : list Z) : option (list str) :=
  mapM (fun i => Py.index text_labels i) labels.

Lemma text_label_in_range i :
  is_Some (Py.index text_labels i) <-> -10 <= i < 10.
Proof.
  unfold Py.index, Py.len. change (Z.of_nat (length text_labels)) with 10.
  rewrite <- not_eq_None_Some.
  destruct (Z.leb_spec 0 i) as [Hi | Hi].
  - rewrite nth_error_Some. change (length text_labels) with 10%nat. lia.
  - destruct (Z.leb_spec 0 (10 + i)) as [Hj | Hj].
    + rewrite nth_error_Some. change (length text_labels) with 10%nat. lia.
    + split; [congruence | lia].
Qed.

(** X15: [get_fashion_mnist_labels] returns one name per label exactly
    when every label is between -10 and 9, and raises IndexError
    otherwise; a negative label [i] names the same class as
    [i + 10]. *)
Theorem labels_in_range (labels : list Z) :
  (is_Some (get_fashion_mnist_labels labels) <->
   Forall (fun i => -10 <= i < 10) labels) /\
  (forall names, get_fashion_mnist_labels labels = Some names ->
     length names = length labels) /\
  (forall i, -10 <= i < 0 ->
     Py.index text_labels i = Py.index text_labels (i + 10)).
Proof.
  unfold get_fashion_mnist_labels. split; [|split].
  - rewrite mapM_is_Some. split; intros H.
    + eapply Forall_impl; [exact H|]. intros i Hi.
      now apply text_label_in_range.
    + eapply Forall_impl; [exact H|]. intros i Hi.
      now apply text_label_in_range.
  - intros names H. symmetry. exact (length_mapM _ _ _ H).
  - intros i Hi. unfold Py.index, Py.len.
    change (Z.of_nat (length text_labels)) with 10.
    destruct (Z.leb_spec 0 i); [lia|].
    destruct (Z.leb_spec 0 (10 + i)); [|lia].
    destruct (Z.leb_spec 0 (i + 10)); [|lia].
    f_equal. lia.
Qed.

Example labels_example :
  get_fashion_mnist_labels [9; 0; -1] =
  Some [py "ankle boot"; py "t-shirt"; py "ankle boot"].
Proof. reflexivity. Qed.

End Labels.

(** ** Captured arguments: save_hyperparameters *)

Module HyperParameters.

Import Str.

Section HyperParameters.

(** The values of local variables and attributes. *)
Variable V : Type.

(** An attribute of the object: a value, or the dictionary that
    [self.hparams] holds. *)
Inductive attr :=
| Val (v : V)
| Dict (d : gmap str V).

(** [k not in set(ignore+['self']) and not k.startswith('_')] *)
Definition kept (ignore : list str) (k : str) : bool :=
  bool_decide (k ∉ ignore ++ [py "self"]) && negb (startswith k (py "_")).

(** [save_hyperparameters(self, ignore=[])]; [local_vars] are the local
    variables of the calling frame and [self] the attributes of the
    object.  [self.hparams] is set first, then [setattr(self, k, v)] for
    every item of the dictionary. *)
Definition hparams_of (ignore : list str) (local_vars : gmap str V)
    : gmap str V :=
  filter (fun kv => kept ignore (fst kv) = true) local_vars.

Definition save_hyperparameters (self : gmap str attr) (ignore : list str)
    (local_vars : gmap str V) : gmap str attr :=
  let hparams := hparams_of ignore local_vars in
  (Val <$> hparams) ∪ <[py "hparams" := Dict hparams]> self.

(** X16: the saved hyperparameters are the local variables of the
    caller other than [self], the ignored names and the names that start
    with an underscore; each becomes an attribute with the same value,
    and an attribute of another name (other than [hparams]) is left as
    it was. *)
Theorem save_hyperparameters_attrs (self : gmap str attr)
    (ignore : list str) (local_vars : gmap str V) (k : str) :
  (forall v,
     hparams_of ignore local_vars !! k = Some v <->
     local_vars !! k = Some v /\ k <> py "self" /\ (k ∉ ignore) /\
     startswith k (py "_") = false) /\
  (forall v,
     hparams_of ignore local_vars !! k = Some v ->
     save_hyperparameters self ignore local_vars !! k = Some (Val v)) /\
  (hparams_of ignore local_vars !! k = None -> k <> py "hparams" ->
   save_hyperparameters self ignore local_vars !! k = self !! k) /\
  (hparams_of ignore local_vars !! py "hparams" = None ->
   save_hyperparameters self ignore local_vars !! py "hparams"
   = Some (Dict (hparams_of ignore local_vars))).
Proof.
  unfold save_hyperparameters. split; [|split; [|split]].
  - intros v. unfold hparams_of. rewrite map_lookup_filter_Some.
    unfold kept. simpl.
    rewrite andb_true_iff, bool_decide_eq_true, negb_true_iff.
    rewrite not_elem_of_app, not_elem_of_cons.
    split.
    + intros (Hv & (Hi & Hs & _) & Hu). auto.
    + intros (Hv & Hs & Hi & Hu). repeat split; auto.
      apply not_elem_of_nil.
  - intros v Hv. apply lookup_union_Some_l. now rewrite lookup_fmap, Hv.
  - intros Hnone Hk. rewrite lookup_union_r by (now rewrite lookup_fmap, Hnone).
    now apply lookup_insert_ne.
  - intros Hnone. rewrite lookup_union_r by (now rewrite lookup_fmap, Hnone).
    apply lookup_insert_eq.
Qed.

End HyperParameters.

(** The local variables of a caller [__init__(self, net, lr)]. *)
Definition example_locals : gmap str Z :=
  <[py "lr" := 3]> (<[py "self" := 0]> (<[py "net" := 1]> ∅)).

Lemma save_hyperparameters_attrs_witness :
  (save_hyperparameters Z ∅ [py "net"] example_locals) !! (py "lr")
  = Some (Val Z 3).
Proof.
  apply (save_hyperparameters_attrs Z ∅ [py "net"] example_locals
           (py "lr")).
  apply (save_hyperparameters_attrs Z ∅ [py "net"] example_locals
           (py "lr")).
  split; [reflexivity|]. split; [discriminate|].
  split; [|reflexivity].
  now apply (bool_decide_eq_false_1 (_ ∈ _)).
Defined.

End HyperParameters.

(** ** Points of a progress board: draw *)

Module ProgressBoard.

Import Str.

(** [Point(x, y)]; the coordinates are taken as floats. *)
Abbreviation Point := (float * float)%type.

(** [self.raw_points] and [self.data]: label to points.  A board that
    has neither attribute yet is the board with both dictionaries empty,
    which is what the first call makes of it. *)
Record t := mk {
  raw_points : gmap str (list Point);
  data : gmap str (list Point)
}.

Definition new : t := mk ∅ ∅.

(** [mean = lambda x: sum(x) / len(x)] *)
Definition mean (x : list float) : float :=
  (Accumulator.fsum x / PrimFloat.of_uint63 (Uint63.of_Z (Py.len x)))%float.

(** [draw(self, x, y, label, every_n=1)], up to the point where the
    dictionaries are final; what follows only plots [self.data]. *)
Definition draw (self : t) (x y : float) (label : str) (every_n : Z) : t :=
  let self :=
    match raw_points self !! label with
    | Some _ => self
    | None =>
        mk (<[label := []]> (raw_points self)) (<[label := []]> (data self))
    end in
  let points := (raw_points self !!! label) ++ [(x, y)] in
  let line := data self !!! label in
  if negb (Py.len points =? every_n) then
    mk (<[label := points]> (raw_points self)) (data self)
  else
    mk (<[label := []]> (raw_points self))
       (<[label := line ++ [(mean (map fst points), mean (map snd points))]]>
          (data self)).

(** A call of [draw], and a sequence of calls with one [every_n]. *)
Record call := Call { call_x : float; call_y : float; call_label : str }.

Definition run (every_n : Z) (calls : list call) : t :=
  fold_left (fun self c => draw self (call_x c) (call_y c) (call_label c)
                             every_n) calls new.

(** How many of the calls are for [label]. *)
Definition count (label : str) (calls : list call) : Z :=
  Py.len (List.filter (fun c => bool_decide (call_label c = label)) calls).

(** The board after some calls of which [k label] were for each label:
    a label without raw points has no line either, and [n] raw points
    have made one point of the line. *)
Definition counted (n : Z) (self : t) (k : str -> Z) : Prop :=
  (forall label,
     raw_points self !! label = None -> data self !! label = None) /\
  (forall label,
     0 <= Py.len (raw_points self !!! label) < n /\
     Py.len (data self !!! label) * n + Py.len (raw_points self !!! label)
     = k label).

(** *** Counting points *)

Lemma len_snoc {B} (l : list B) (x : B) : Py.len (l ++ [x]) = Py.len l + 1.
Proof. unfold Py.len. rewrite length_app. simpl. lia. Qed.

Lemma lookup_total_None (m : gmap str (list Point)) label :
  m !! label = None -> m !!! label = [].
Proof. intros H. now rewrite lookup_total_alt, H. Qed.

Lemma draw_counted n self x y label k :
  0 < n -> counted n self k ->
  counted n (draw self x y label n)
    (fun l => k l + if bool_decide (label = l) then 1 else 0).
Proof.
  intros Hn [Hdom Hk]. unfold draw.
  set (self1 := match raw_points self !! label with
                | Some _ => self
                | None => _
                end).
  assert (H1 : (forall l, raw_points self1 !!! l = raw_points self !!! l) /\
               (forall l, data self1 !!! l = data self !!! l) /\
               (forall l, raw_points self1 !! l = None ->
                          data self1 !! l = None) /\
               is_Some (raw_points self1 !! label)).
  { unfold self1. destruct (raw_points self !! label) eqn:Hl;
      [repeat split; eauto|].
    pose proof (Hdom label Hl) as Hd. simpl. repeat split.
    - intros l. destruct (decide (label = l)) as [<- | Hne].
      + now rewrite lookup_total_insert_eq, lookup_total_None.
      + now rewrite lookup_total_insert_ne.
    - intros l. destruct (decide (label = l)) as [<- | Hne].
      + now rewrite lookup_total_insert_eq, lookup_total_None.
      + now rewrite lookup_total_insert_ne.
    - intros l. destruct (decide (label = l)) as [<- | Hne].
      + now rewrite lookup_insert_eq.
      + rewrite !lookup_insert_ne by assumption. apply Hdom.
    - rewrite lookup_insert_eq. eauto. }
  destruct H1 as (Hraw1 & Hdata1 & Hdom1 & Hsome). clearbody self1.
  rewrite len_snoc, Hraw1, Hdata1.
  destruct (Hk label) as [Hr Hc].
  match goal with
  | |- context [?a =? n] => destruct (Z.eqb_spec a n) as [Hfull | Hmore]
  end; cbn [negb]; unfold counted; cbn [raw_points data]; split.
  - intros l. destruct (decide (label = l)) as [<- | Hne].
    + now rewrite lookup_insert_eq.
    + rewrite !lookup_insert_ne by assumption. apply Hdom1.
  - intros l. destruct (decide (label = l)) as [<- | Hne].
    + rewrite !lookup_total_insert_eq, len_snoc.
      rewrite bool_decide_eq_true_2 by reflexivity.
      change (Py.len []) with 0. split; [lia | nia].
    + rewrite !lookup_total_insert_ne by assumption.
      rewrite bool_decide_eq_false_2 by assumption.
      rewrite Hraw1, Hdata1, Z.add_0_r. apply Hk.
  - intros l. destruct (decide (label = l)) as [<- | Hne].
    + now rewrite lookup_insert_eq.
    + rewrite !lookup_insert_ne by assumption. apply Hdom1.
  - intros l. destruct (decide (label = l)) as [<- | Hne].
    + rewrite !lookup_total_insert_eq, len_snoc, Hdata1.
      rewrite bool_decide_eq_true_2 by reflexivity.
      split; lia.
    + rewrite !lookup_total_insert_ne by assumption.
      rewrite bool_decide_eq_false_2 by assumption.
      rewrite Hraw1, Hdata1, Z.add_0_r. apply Hk.
Qed.

Lemma new_counted n : 0 < n -> counted n new (fun _ => 0).
Proof.
  intros Hn. split; [reflexivity|]. intros label. cbn [new raw_points data].
  rewrite !lookup_total_empty. unfold Py.len. simpl. lia.
Qed.

Lemma run_counted n calls :
  0 < n -> counted n (run n calls) (fun l => count l calls).
Proof.
  intros Hn. unfold run.
  induction calls as [|c calls IH] using rev_ind; [now apply new_counted|].
  rewrite fold_left_app. simpl.
  pose proof (draw_counted n _ (call_x c) (call_y c) (call_label c) _ Hn IH)
    as [Hdom Hk].
  split; [exact Hdom|]. intros l. destruct (Hk l) as [Hr Hc].
  split; [exact Hr|]. rewrite Hc. unfold count.
  rewrite List.filter_app. cbn [List.filter].
  destruct (bool_decide (call_label c = l));
    [symmetry; apply len_snoc | now rewrite app_nil_r, Z.add_0_r].
Qed.

(** X17: on a new board, with one positive [every_n] for all calls, a
    label that [draw] was called [k] times for has [k / every_n] points
    on its line and [k mod every_n] raw points waiting for the next
    one, whatever was drawn for the other labels in between. *)
Theorem draw_every_n (every_n : Z) (calls : list call) (label : str) :
  0 < every_n ->
  Py.len (data (run every_n calls) !!! label)
  = count label calls / every_n /\
  Py.len (raw_points (run every_n calls) !!! label)
  = count label calls mod every_n.
Proof.
  intros Hn. destruct (run_counted every_n calls Hn) as [_ Hk].
  destruct (Hk label) as [Hr Hc]. split.
  - eapply Z.div_unique_pos; [exact Hr | lia].
  - eapply (Z.mod_unique_pos _ _
              (Py.len (data (run every_n calls) !!! label)));
      [exact Hr | lia].
Qed.

(** Three points for 'loss' with one for 'acc' in between. *)
Definition example_calls : list call :=
  [Call 1 8 (py "loss"); Call 2 6 (py "loss"); Call 2 1 (py "acc");
   Call 3 4 (py "loss")].

Example draw_example :
  data (run 2 example_calls) !! py "loss" = Some [(1.5, 7)%float] /\
  raw_points (run 2 example_calls) !! py "loss" = Some [(3, 4)%float].
Proof. split; vm_compute; reflexivity. Qed.

Lemma draw_every_n_witness :
  Py.len (data (run 2 example_calls) !!! py "loss") = 1.
Proof.
  apply (draw_every_n 2 example_calls (py "loss")). lia.
Defined.

End ProgressBoard.

(** ** Series of an animated plot: Animator *)

Module Animator.

Import Str.

Local Open Scope nat_scope.

Section Animator.

(** The plotted numbers. *)
Variable V : Type.

(** An argument of [add]: one number or [None] (no [__len__]), or a
    sequence of them. *)
Inductive arg :=
| Scalar (v : option V)
| Seq (l : list (option V)).

(** [self.X], [self.Y] and [self.fmts]; the figure is not part of the
    state kept here. *)
Record t := mk {
  X : option (list (list V));
  Y : option (list (list V));
  fmts : list str
}.

(** [__init__]: [self.X, self.Y, self.fmts = None, None, fmts] *)
Definition init (fmts : list str) : t := mk None None fmts.

(** [not self.X]: [None] and the empty list are false. *)
Definition unset (o : option (list (list V))) : bool :=
  match o with
  | Some (_ :: _) => false
  | _ => true
  end.

(** [if not self.X: self.X = [[] for _ in range(n)]] *)
Definition series (o : option (list (list V))) (n : nat)
    : list (list V) :=
  if unset o then replicate n [] else default [] o.

(** [n = len(y)], after [y = [y]] for a [y] without [__len__]. *)
Definition count (y : arg) : nat :=
  match y with
  | Scalar _ => 1
  | Seq l => length l
  end.

(** [zip(x, y)], after [x = [x] * n] for an [x] without [__len__]. *)
Definition values (x y : arg) : list (option V * option V) :=
  zip (match x with
       | Scalar v => replicate (count y) v
       | Seq l => l
       end)
      (match y with
       | Scalar v => [v]
       | Seq l => l
       end).

(** [for i, (a, b) in enumerate(zip(x, y)):
       if a is not None and b is not None:
           self.X[i].append(a); self.Y[i].append(b)]
    from index [i] on; the flag is false when an index is out of range
    (IndexError), and the lists are as the loop left them. *)
Fixpoint append_points (i : nat) (pairs : list (option V * option V))
    (X Y : list (list V)) : list (list V) * list (list V) * bool :=
  match pairs with
  | [] => (X, Y, true)
  | (Some a, Some b) :: pairs' =>
      if decide (i < length X) then
        if decide (i < length Y) then
          append_points (S i) pairs'
            (alter (fun xs => xs ++ [a]) i X)
            (alter (fun ys => ys ++ [b]) i Y)
        else (alter (fun xs => xs ++ [a]) i X, Y, false)
      else (X, Y, false)
  | _ :: pairs' => append_points (S i) pairs' X Y
  end.

(** [add(self, x, y)]: the new state and the lines drawn,
    [zip(self.X, self.Y, self.fmts)], or [None] for an IndexError. *)
Definition add (self : t) (x y : arg)
    : t * option (list (list V * list V * str)) :=
  let '(X1, Y1, ok) :=
    append_points 0 (values x y) (series (X self) (count y))
      (series (Y self) (count y)) in
  (mk (Some X1) (Some Y1) (fmts self),
   if ok then Some (zip (zip X1 Y1) (fmts self)) else None).

(** Calls of [add] one after the other, by a caller that goes on after
    an IndexError. *)
Definition add_all (self : t) (calls : list (arg * arg)) : t :=
  fold_left (fun self c => fst (add self (fst c) (snd c))) calls self.

(** [X] and [Y] hold the same number of series, and a series has as many
    x values as y values. *)
Definition same_lengths (Xs Ys : list (list V)) : Prop :=
  Forall2 (fun xs ys => length xs = length ys) Xs Ys.

Definition aligned (self : t) : Prop :=
  match X self, Y self with
  | None, None => True
  | Some Xs, Some Ys => same_lengths Xs Ys
  | _, _ => False
  end.

(** *** The series stay aligned *)

Lemma append_points_same_lengths pairs : forall i Xs Ys,
  same_lengths Xs Ys ->
  same_lengths (append_points i pairs Xs Ys).1.1
    (append_points i pairs Xs Ys).1.2.
Proof.
  unfold same_lengths.
  induction pairs as [|[[a|] [b|]] pairs IH]; intros i Xs Ys H; simpl;
    auto.
  pose proof (Forall2_length _ _ _ H) as Hlen.
  destruct (decide (i < length Xs)) as [Hi | Hi]; [|exact H].
  destruct (decide (i < length Ys)) as [Hj | Hj]; [|lia].
  apply IH. apply Forall2_alter; [exact H|].
  intros xs ys _ _ Hxy. rewrite !length_app. simpl. lia.
Qed.

Lemma series_same_lengths self n :
  aligned self -> same_lengths (series (X self) n) (series (Y self) n).
Proof.
  unfold aligned, series, same_lengths.
  destruct (X self) as [[|xs Xs]|], (Y self) as [[|ys Ys]|]; simpl;
    try tauto; intros H; try (now apply Forall2_replicate);
    inversion H.
Qed.

Lemma add_aligned self x y : aligned self -> aligned (add self x y).1.
Proof.
  intros H. unfold add.
  pose proof (append_points_same_lengths (values x y) 0 _ _
                (series_same_lengths self (count y) H)) as Hs.
  destruct (append_points 0 (values x y) _ _) as [[X1 Y1] ok].
  exact Hs.
Qed.

(** X18: whatever is passed to [add], and whether or not a call ends in
    an IndexError, after any sequence of calls on a new animator [X] and
    [Y] hold the same number of series and every series has as many x
    values as y values: the points that are plotted are pairs. *)
Theorem add_keeps_aligned (fmts : list str) (calls : list (arg * arg)) :
  aligned (add_all (init fmts) calls).
Proof.
  unfold add_all.
  assert (H : aligned (init fmts)) by exact I.
  revert H. generalize (init fmts).
  induction calls as [|c calls IH]; intros self H; [exact H|].
  simpl. apply IH. now apply add_aligned.
Qed.

(** *** When a call runs out of series *)

(** The step of the next lemma for a pair that the loop skips. *)
Local Ltac skipped_pair IH :=
  rewrite IH by assumption;
  split; intros (j & a' & b' & H & Hj);
  [ exists (S j), a', b'; split; [exact H | lia]
  | destruct j as [|j];
    [discriminate H | exists j, a', b'; split; [exact H | lia]] ].

Lemma append_points_flag pairs : forall i Xs Ys,
  length Xs = length Ys ->
  (append_points i pairs Xs Ys).2 = false <->
  exists j a b, pairs !! j = Some (Some a, Some b) /\ length Xs <= i + j.
Proof.
  induction pairs as [|p pairs IH]; intros i Xs Ys Hlen.
  - simpl. split; [discriminate | intros (j & a & b & H & _)].
    rewrite lookup_nil in H. discriminate H.
  - destruct p as [[a|] [b|]]; simpl.
    + destruct (decide (i < length Xs)) as [Hi | Hi].
      * destruct (decide (i < length Ys)) as [_ | Hj]; [|lia].
        rewrite IH by (now rewrite !length_alter).
        rewrite length_alter.
        split; intros (j & a' & b' & H & Hj).
        -- exists (S j), a', b'. split; [exact H | lia].
        -- destruct j as [|j]; [lia|].
           exists j, a', b'. split; [exact H | lia].
      * simpl. split; [|reflexivity]. intros _. exists 0, a, b.
        split; [reflexivity | lia].
    + skipped_pair IH.
    + skipped_pair IH.
    + skipped_pair IH.
Qed.

(** X20: on an animator whose series are aligned, [add] ends in an
    IndexError exactly when some position of [zip(x, y)] holds two
    numbers (neither is [None]) and is not below the number of series,
    which is [len(y)] on the first call and the number of series of the
    first call afterwards. *)
Theorem add_index_error (self : t) (x y : arg) :
  aligned self ->
  (add self x y).2 = None <->
  exists j a b,
    values x y !! j = Some (Some a, Some b) /\
    length (series (X self) (count y)) <= j.
Proof.
  intros H. unfold add.
  pose proof (append_points_flag (values x y) 0 _ _
                (Forall2_length _ _ _
                   (series_same_lengths self (count y) H))) as Hflag.
  destruct (append_points 0 (values x y) _ _) as [[X1 Y1] ok].
  simpl in *. rewrite <- Hflag.
  destruct ok; split; congruence.
Qed.

(** *** One x and [n] y values per call *)

(** A call [add(x, (y1, ..., yn))] with numbers for [x] and every
    [yi]. *)
Record call := Call { cx : V; cys : list V }.

(** Calls one after the other, by a caller that an IndexError stops. *)
Definition add_call (self : option t) (c : call) : option t :=
  match self with
  | None => None
  | Some self =>
      match add self (Scalar (Some (cx c))) (Seq (Some <$> cys c)) with
      | (self', Some _) => Some self'
      | (_, None) => None
      end
  end.

Definition add_calls (self : t) (calls : list call) : option t :=
  fold_left add_call calls (Some self).

(** The x values of the calls, and their [i]-th y values. *)
Definition xs_of (calls : list call) : list V := cx <$> calls.
Definition column (calls : list call) (i : nat) : list V :=
  omap (fun c => cys c !! i) calls.

Lemma append_points_all x ys : forall Xp Yp Xs Ys,
  length Xp = length Yp -> length Xs = length ys ->
  length Ys = length ys ->
  append_points (length Xp)
    (zip (replicate (length ys) (Some x)) (Some <$> ys))
    (Xp ++ Xs) (Yp ++ Ys)
  = (Xp ++ ((fun l => l ++ [x]) <$> Xs),
     Yp ++ zip_with (fun l y => l ++ [y]) Ys ys, true).
Proof.
  induction ys as [|y ys IH]; intros Xp Yp Xs Ys Hp HX HY.
  - destruct Xs, Ys; try discriminate. reflexivity.
  - destruct Xs as [|l Xs], Ys as [|k Ys]; try discriminate.
    cbn [length replicate fmap list_fmap zip zip_with append_points].
    rewrite decide_True by (rewrite length_app; simpl; lia).
    rewrite decide_True by (rewrite length_app; simpl; lia).
    rewrite <- (Nat.add_0_r (length Xp)) at 2.
    rewrite alter_app_r. rewrite Hp at 2.
    rewrite <- (Nat.add_0_r (length Yp)) at 1.
    rewrite alter_app_r. cbn [alter list_alter].
    specialize (IH (Xp ++ [l ++ [x]]) (Yp ++ [k ++ [y]]) Xs Ys).
    rewrite !length_app in IH. cbn [length] in IH.
    rewrite Nat.add_1_r in IH. rewrite <- !app_assoc in IH.
    apply IH; simpl in *; lia.
Qed.

Lemma add_call_columns formats n calls c :
  1 <= n -> length (cys c) = n ->
  Forall (fun c => length (cys c) = n) calls ->
  let self :=
    match calls with
    | [] => init formats
    | _ :: _ =>
        mk (Some (replicate n (xs_of calls)))
           (Some (column calls <$> seq 0 n)) formats
    end in
  add_call (Some self) c
  = Some (mk (Some (replicate n (xs_of (calls ++ [c]))))
            (Some (column (calls ++ [c]) <$> seq 0 n)) formats).
Proof.
  intros Hn Hc Hcalls self. unfold add_call, add, values, count.
  rewrite length_fmap, Hc.
  assert (HX : series (X self) n = replicate n (xs_of calls)).
  { unfold self. destruct calls; [reflexivity|].
    unfold series. cbn [X]. destruct n; [lia | reflexivity]. }
  assert (HY : series (Y self) n = column calls <$> seq 0 n).
  { unfold self. destruct calls as [|c0 calls]; cbn [Y init].
    - unfold series, unset, column. simpl.
      clear. generalize 0. induction n as [|n IH]; intros j;
        [reflexivity|]. simpl. now rewrite <- IH.
    - unfold series. destruct n; [lia | reflexivity]. }
  assert (Hf : fmts self = formats) by (unfold self; now destruct calls).
  rewrite HX, HY, Hf.
  pose proof (append_points_all (cx c) (cys c) [] []
                (replicate n (xs_of calls)) (column calls <$> seq 0 n))
    as Happ.
  rewrite Hc in Happ. cbn [length app] in Happ.
  rewrite Happ by (rewrite ?length_replicate, ?length_fmap, ?length_seq;
                   reflexivity).
  do 3 f_equal.
  - rewrite fmap_replicate. unfold xs_of. now rewrite fmap_app.
  - f_equal. apply list_eq. intros i.
    rewrite lookup_zip_with, !list_lookup_fmap.
    destruct (decide (i < n)) as [Hi | Hi].
    + rewrite (proj2 (lookup_seq 0 n i i)) by lia. simpl.
      destruct (lookup_lt_is_Some_2 (cys c) i ltac:(lia)) as [y Hy].
      rewrite Hy. simpl. unfold column. rewrite omap_app. simpl.
      now rewrite Hy.
    + rewrite (lookup_ge_None_2 (seq 0 n) i)
        by (rewrite length_seq; lia).
      reflexivity.
Qed.

(** X19: when every call passes one number for [x] and [n >= 1] numbers
    for [y], no call on a new animator ends in an IndexError, and after
    the calls there are [n] series: every series has the x values of the
    calls in order, and series [i] has their [i]-th y values. *)
Theorem add_calls_columns (formats : list str) (n : nat) (calls : list call) :
  1 <= n -> calls <> [] ->
  Forall (fun c => length (cys c) = n) calls ->
  add_calls (init formats) calls
  = Some (mk (Some (replicate n (xs_of calls)))
            (Some (column calls <$> seq 0 n)) formats).
Proof.
  intros Hn. unfold add_calls.
  induction calls as [|c calls IH] using rev_ind; [congruence|].
  intros _ Hall. apply Forall_app in Hall as [Hcalls Hc].
  inversion Hc as [|? ? Hlen _]; subst.
  rewrite fold_left_app. cbn [fold_left].
  destruct calls as [|c0 calls].
  - exact (add_call_columns formats (length (cys c)) [] c Hn eq_refl Hcalls).
  - rewrite IH by (assumption || discriminate).
    exact (add_call_columns formats (length (cys c)) (c0 :: calls) c Hn
             eq_refl Hcalls).
Qed.

End Animator.

(** An animator with one series, of one point. *)
Definition one_series : t Z := mk Z (Some [[1%Z]]) (Some [[5%Z]]) [py "-"].

Lemma add_index_error_witness :
  (add Z one_series (Scalar Z (Some 2%Z)) (Seq Z [Some 6%Z; Some 7%Z])).2
  = None.
Proof.
  apply (add_index_error Z one_series).
  - repeat constructor.
  - exists 1, 2%Z, 7%Z. split; [reflexivity | simpl; lia].
Defined.

(** Two calls [add(1, (5, 7))] and [add(2, (6, 8))]. *)
Definition example_calls : list (call Z) :=
  [Call Z 1%Z [5; 7]%Z; Call Z 2%Z [6; 8]%Z].

Lemma add_calls_columns_witness :
  add_calls Z (init Z [py "-"; py "m--"]) example_calls
  = Some (mk Z (Some [[1; 2]; [1; 2]]%Z) (Some [[5; 6]; [7; 8]]%Z)
            [py "-"; py "m--"]).
Proof.
  apply (add_calls_columns Z [py "-"; py "m--"] 2 example_calls).
  - lia.
  - discriminate.
  - repeat constructor.
Defined.

End Animator.

(** ** The masked loss: MaskedSoftmaxCELoss *)

Module MaskedLoss.

Import Exn Mask.

(** The results of the rows, or the first exception among them. *)
Fixpoint all_ok {B} (rs : list (result B)) : result (list B) :=
  match rs with
  | [] => Ok []
  | Raise e :: _ => Raise e
  | Ok b :: rs =>
      match all_ok rs with
      | Ok bs => Ok (b :: bs)
      | Raise e => Raise e
      end
  end.

(** The first [valid_len[i]] positions of row [i]. *)
Definition valid_prefix {B} (valid_len : list Z) (t : list (list B))
    : list (list B) :=
  zip_with (fun v row => firstn (Z.to_nat v) row) valid_len t.

Section MaskedLoss.

(** The float32 positions that [sequence_mask] compares, as in
    [Mask]. *)
Variable float32 : Type.
Variable cast_float32 : Z -> float32.
Variable less : float32 -> float32 -> bool.

(** The float32 numbers of the weights and the losses: 0.0, 1.0, their
    product, and [tf.reduce_mean] on a row (TensorFlow chooses the order
    in which a row is added up). *)
Variable F : Type.
Variable zero one : F.
Variable mul : F -> F -> F.
Variable reduce_mean : list F -> F.

(** [tf.one_hot(label, depth=pred.shape[-1])] and
    [tf.keras.losses.CategoricalCrossentropy(from_logits=True,
    reduction='none')] on it and the scores [pred]: the tensor of the
    losses, one for every position. *)
Variable Scores : Type.
Variable cross_entropy : list (list Z) -> Scores -> list (list F).

(** [tf.ones_like(label, dtype=tf.float32)] *)
Definition ones_like (label : list (list Z)) : list (list F) :=
  map (map (fun _ => one)) label.

(** [a * b] for two tensors of rank 2, with broadcasting on both axes. *)
Definition multiply (a b : list (list F)) : result (list (list F)) :=
  match broadcast (broadcast mul) a b with
  | Ok rows => all_ok rows
  | Raise e => Raise e
  end.

(** [MaskedSoftmaxCELoss(valid_len).call(label, pred)];
    [label] has shape (batch_size, num_steps), [pred] has shape
    (batch_size, num_steps, vocab_size). *)
Definition call (valid_len : list Z) (label : list (list Z))
    (pred : Scores) : result (list F) :=
  match
    sequence_mask float32 cast_float32 less (X2 (ones_like label))
      valid_len zero
  with
  | Ok (X2 weights) =>
      let unweighted_loss := cross_entropy label pred in
      match multiply unweighted_loss weights with
      | Ok weighted => Ok (map reduce_mean weighted)
      | Raise e => Raise e
      end
  | Ok (X3 _) => Raise InvalidArgumentError
  | Raise e => Raise e
  end.

(** A loss is regular when its product with 0.0 is 0.0: in float32, when
    it is finite and not negative (the product is a NaN for an infinity
    or a NaN, and -0.0 for a negative number). *)
Definition regular (x : F) : Prop := mul x zero = zero.

(** The losses at the positions from the valid length on are regular. *)
Definition padding_regular (valid_len : list Z) (losses : list (list F))
    : Prop :=
  Forall2 (fun v row => Forall regular (skipn (Z.to_nat v) row))
    valid_len losses.

(** A row of losses with the positions from the valid length on set to
    0.0; a loss below the valid length is multiplied by 1.0. *)
Definition keep (v : Z) (row : list F) : list F :=
  map (fun x => mul x one) (firstn (Z.to_nat v) row)
  ++ repeat zero (length row - Z.to_nat v).

(** The weights of a row: 1.0 below the valid length, 0.0 from it on. *)
Definition weights_row (num_steps : nat) (v : Z) : list F :=
  map (fun j => if Z.of_nat j <? v then one else zero) (seq 0 num_steps).

Hypothesis less_exact :
  forall j v, 0 <= j < 2 ^ 24 ->
  less (cast_float32 j) (cast_float32 v) = (j <? v).

Lemma masked_ones_row {B} v (row : list B) :
  Z.of_nat (length row) <= 2 ^ 24 ->
  zip_with (fun (m : bool) (x : F) => if m then x else zero)
    (map (fun j => less j (cast_float32 v))
         (tf_range float32 cast_float32 (length row)))
    (map (fun _ => one) row)
  = weights_row (length row) v.
Proof.
  intros Hmax. unfold tf_range, weights_row. rewrite map_map.
  assert (H : forall o, (Z.of_nat (o + length row) <= 2 ^ 24) ->
    zip_with (fun (m : bool) (x : F) => if m then x else zero)
      (map (fun j => less (cast_float32 (Z.of_nat j)) (cast_float32 v))
           (seq o (length row)))
      (map (fun _ => one) row)
    = map (fun j => if Z.of_nat j <? v then one else zero)
          (seq o (length row))).
  { induction row as [|x row IH]; intros o Ho; [reflexivity|].
    cbn [length seq map zip_with] in *.
    rewrite less_exact by lia. f_equal. apply IH; lia. }
  apply (H 0%nat). exact Hmax.
Qed.

Lemma weights num_steps valid_len (label : list (list Z)) :
  Z.of_nat num_steps <= 2 ^ 24 ->
  row_length num_steps label -> length label = length valid_len ->
  sequence_mask float32 cast_float32 less (X2 (ones_like label))
    valid_len zero
  = Ok (X2 (map (weights_row num_steps) valid_len)).
Proof.
  intros Hmax Hrows Hlen. cbn [sequence_mask].
  rewrite (sequence_mask_rows _ _ _ _ num_steps).
  - do 2 f_equal. clear -Hmax Hrows Hlen less_exact.
    revert valid_len Hlen.
    induction Hrows as [|row label Hrow Hrows IH]; intros [|v valid_len] Hlen;
      try discriminate; [reflexivity|].
    cbn [ones_like make_mask map zip_with]. f_equal.
    + subst num_steps. now apply masked_ones_row.
    + apply IH. simpl in Hlen. lia.
  - unfold row_length, ones_like.
    clear Hlen. induction Hrows; cbn [map]; [constructor|].
    constructor; [now rewrite length_map | assumption].
  - unfold ones_like. now rewrite length_map.
Qed.

Lemma multiply_rows num_steps (a b : list (list F)) :
  row_length num_steps a -> row_length num_steps b ->
  length a = length b ->
  multiply a b = Ok (zip_with (zip_with mul) a b).
Proof.
  intros Ha Hb Hlen. unfold multiply. rewrite broadcast_same by assumption.
  revert b Hb Hlen.
  induction Ha as [|x a Hx Ha IH]; intros [|w b] Hb Hlen;
    try discriminate; [reflexivity|].
  inversion Hb as [|? ? Hw Hb']; subst.
  cbn [zip_with all_ok]. rewrite broadcast_same by congruence.
  rewrite IH by (try assumption; simpl in Hlen; lia). reflexivity.
Qed.

(** The product of a row with its weights, from position [o] on. *)
Lemma weighted_row v : forall (row : list F) o,
  Forall regular (skipn (Z.to_nat v - o) row) ->
  zip_with mul row
    (map (fun j => if Z.of_nat j <? v then one else zero)
         (seq o (length row)))
  = map (fun x => mul x one) (firstn (Z.to_nat v - o) row)
    ++ repeat zero (length row - (Z.to_nat v - o)).
Proof.
  induction row as [|x row IH]; intros o Hreg.
  - now destruct (Z.to_nat v - o)%nat.
  - cbn [length seq map zip_with].
    destruct (Z.ltb_spec (Z.of_nat o) v) as [Hv|Hv].
    + replace (Z.to_nat v - o)%nat with (S (Z.to_nat v - S o)) in * by lia.
      cbn [firstn skipn map app Nat.sub] in *. f_equal. now apply IH.
    + replace (Z.to_nat v - o)%nat with 0%nat in * by lia.
      cbn [firstn skipn map app Nat.sub repeat] in *.
      inversion Hreg as [|? ? Hx Hrow]; subst. f_equal; [exact Hx|].
      rewrite (IH (S o))
        by (replace (Z.to_nat v - S o)%nat with 0%nat by lia; exact Hrow).
      replace (Z.to_nat v - S o)%nat with 0%nat by lia.
      cbn [firstn map app]. now rewrite Nat.sub_0_r.
Qed.

Lemma weighted_rows num_steps : forall valid_len (losses : list (list F)),
  row_length num_steps losses -> padding_regular valid_len losses ->
  zip_with (zip_with mul) losses (map (weights_row num_steps) valid_len)
  = zip_with keep valid_len losses.
Proof.
  intros valid_len losses Hrows Hreg. revert Hrows.
  induction Hreg as [|v row valid_len losses Hrow _ IH]; intros Hrows;
    [reflexivity|].
  inversion Hrows as [|? ? Hlen Hrows']; subst.
  cbn [map zip_with]. f_equal; [|now apply IH].
  unfold weights_row, keep. rewrite (weighted_row v row 0).
  - now rewrite Nat.sub_0_r.
  - now rewrite Nat.sub_0_r.
Qed.

Lemma keep_prefix v (row row' : list F) :
  length row = length row' ->
  firstn (Z.to_nat v) row = firstn (Z.to_nat v) row' ->
  keep v row = keep v row'.
Proof. intros Hlen Hpre. unfold keep. now rewrite Hlen, Hpre. Qed.

Lemma keep_prefixes num_steps :
  forall valid_len (losses losses' : list (list F)),
  row_length num_steps losses -> row_length num_steps losses' ->
  length losses = length losses' ->
  valid_prefix valid_len losses = valid_prefix valid_len losses' ->
  zip_with keep valid_len losses = zip_with keep valid_len losses'.
Proof.
  unfold valid_prefix.
  induction valid_len as [|v valid_len IH]; intros [|row losses]
    [|row' losses'] Hrows Hrows' Hlen Hpre; try discriminate;
    try reflexivity.
  inversion Hrows; inversion Hrows'; subst.
  cbn [zip_with] in *. injection Hpre as Hrow Hrest. f_equal.
  - apply keep_prefix; congruence.
  - apply IH; try assumption. simpl in Hlen. lia.
Qed.

Lemma call_keep num_steps valid_len label pred :
  Z.of_nat num_steps <= 2 ^ 24 ->
  row_length num_steps label -> length label = length valid_len ->
  row_length num_steps (cross_entropy label pred) ->
  padding_regular valid_len (cross_entropy label pred) ->
  call valid_len label pred
  = Ok (map reduce_mean
          (zip_with keep valid_len (cross_entropy label pred))).
Proof.
  intros Hmax Hlabel Hlen Hrows Hreg. unfold call.
  rewrite (weights num_steps) by assumption.
  rewrite (multiply_rows num_steps); try assumption.
  - now rewrite (weighted_rows num_steps).
  - unfold row_length. apply List.Forall_forall. intros w Hw.
    apply in_map_iff in Hw as (v & <- & _). unfold weights_row.
    now rewrite length_map, length_seq.
  - rewrite length_map. symmetry. exact (Forall2_length _ _ _ Hreg).
Qed.

(** X21: for labels of shape (batch_size, num_steps) with at most 2^24
    steps, one valid length per row and a loss tensor of the same shape
    whose entries from the valid length on are regular (finite and not
    negative), the masked loss of a row is [reduce_mean] of the row with
    those entries set to 0.0: they count in the mean as zeros.  So scores
    whose losses differ only at positions from the valid length on, and
    are regular there, give the same result. *)
Theorem masked_loss_ignores_padding (num_steps : nat) (valid_len : list Z)
    (label : list (list Z)) (pred pred' : Scores) :
  Z.of_nat num_steps <= 2 ^ 24 ->
  row_length num_steps label -> length label = length valid_len ->
  row_length num_steps (cross_entropy label pred) ->
  padding_regular valid_len (cross_entropy label pred) ->
  call valid_len label pred
  = Ok (map reduce_mean
          (zip_with keep valid_len (cross_entropy label pred))) /\
  (row_length num_steps (cross_entropy label pred') ->
   padding_regular valid_len (cross_entropy label pred') ->
   valid_prefix valid_len (cross_entropy label pred')
   = valid_prefix valid_len (cross_entropy label pred) ->
   call valid_len label pred' = call valid_len label pred).
Proof.
  intros Hmax Hlabel Hlen Hrows Hreg. split.
  - now apply (call_keep num_steps).
  - intros Hrows' Hreg' Hpre.
    rewrite !(call_keep num_steps) by assumption. do 2 f_equal.
    apply (keep_prefixes num_steps); try assumption.
    rewrite <- (Forall2_length _ _ _ Hreg), <- (Forall2_length _ _ _ Hreg').
    reflexivity.
Qed.

End MaskedLoss.

(** *** The loss on binary32 numbers *)

(** The mean of a row, added up from left to right. *)
Definition reduce_mean32 (row : list spec_float) : spec_float :=
  Float32.div (Float32.reduce_sum row) (Float32.of_Z (Py.len row)).

(** [call] on float32 losses, for a loss tensor that is given. *)
Definition call32 (valid_len : list Z) (label : list (list Z))
    (losses : list (list spec_float)) : result (list spec_float) :=
  call Z (fun z => z) Z.ltb spec_float Float32.zero Float32.one Float32.mul
    reduce_mean32 (list (list spec_float)) (fun _ losses => losses)
    valid_len label losses.

(** Two rows of three steps with valid lengths 1 and 3; the losses
    differ at the padded positions of the first row. *)
Definition example_valid_len : list Z := [1; 3]%Z.
Definition example_label : list (list Z) := [[4; 1; 1]; [5; 6; 3]]%Z.
Definition example_losses : list (list spec_float) :=
  map (map Float32.of_Z) [[1; 2; 3]; [4; 5; 6]]%Z.
Definition example_losses' : list (list spec_float) :=
  map (map Float32.of_Z) [[1; 7; 8]; [4; 5; 6]]%Z.

Lemma masked_loss_ignores_padding_witness :
  call32 example_valid_len example_label example_losses'
  = call32 example_valid_len example_label example_losses.
Proof.
  apply (masked_loss_ignores_padding Z (fun z => z) Z.ltb spec_float
           Float32.zero Float32.one Float32.mul reduce_mean32
           (list (list spec_float)) (fun _ losses => losses)
           (fun j v _ => eq_refl) 3 example_valid_len example_label
           example_losses example_losses').
  - simpl. lia.
  - repeat constructor.
  - reflexivity.
  - repeat constructor.
  - repeat constructor.
  - repeat constructor.
  - repeat constructor.
  - reflexivity.
Defined.

(** An infinite loss at a padded position is not masked: the product
    with the weight 0.0 is a NaN, and so is the loss of the row. *)
Example infinite_padding_loss :
  call32 [1] [[4; 1]] [[Float32.of_Z 1; Float32.infinity]] = Ok [S754_nan] /\
  call32 [1] [[4; 1]] [[Float32.of_Z 1; Float32.of_Z 2]]
  = Ok [S754_finite false 8388608 (-24)].
Proof. split; vm_compute; reflexivity. Qed.

End MaskedLoss.
